(** * enmeil: provider resolution and mail-protocol orchestration

    A shallow embedding of the email client backend:
    - [config.js]          the provider table [PROVIDERS];
    - [emailProviders.js]  [getProviderSettings];
    - [emailUtils.js]      the IMAP / POP3 / SMTP adapters and
                           [extractFolderNames];
    - [server.js]          the request handlers of [/api/test-connection],
                           [/api/fetch-emails], [/api/send-email],
                           [/api/mark-read] and [/api/get-folders];
    - [apiClient.js]       [logActivity];
    - [https-examples.js]  [makeSecureAPICall] and [makeAPICallWithRetry].

    Callback-driven code is modelled by explicit state passing: every adapter
    is a step function over the callbacks the client library delivers, and a
    run is the fold of that step function over the delivered callbacks.  The
    promise an adapter returns is the [settled] field of its state: the first
    [resolve] or [reject] wins and later ones are ignored. *)

From Stdlib Require Import String Ascii List ZArith Bool Lia Sorted.
From Stdlib Require Import Numbers.DecimalString.
Import ListNotations.
Open Scope string_scope.
Open Scope Z_scope.

(* ================================================================== *)
(** * JavaScript values, strings and promises *)
(* ================================================================== *)

Module Js.

(** The values a JSON request body can carry in a scalar field.  Numbers
    are the integral ones; no comparison below distinguishes a fractional
    number from an integer other than [0] and [465]. *)
Inductive Value :=
| Undefined
| Null
| Bool (b : bool)
| Number (n : Z)
| Str (s : string).

(** ToBoolean. *)
Definition truthy (v : Value) : bool :=
  match v with
  | Undefined | Null => false
  | Bool b => b
  | Number n => negb (n =? 0)
  | Str s => negb (s =? "")%string
  end.

(** Strict equality [v === 'literal'] and [v === 465]. *)
Definition strictEqStr (v : Value) (lit : string) : bool :=
  match v with
  | Str s => (s =? lit)%string
  | _ => false
  end.

Definition strictEqNum (v : Value) (lit : Z) : bool :=
  match v with
  | Number n => n =? lit
  | _ => false
  end.

(** ToPropertyKey, for computed keys [{ [v]: ... }].  A number is spelled
    in decimal digits, as the engine spells an integer below [1e21]. *)
Definition toPropertyKey (v : Value) : string :=
  match v with
  | Undefined => "undefined"
  | Null => "null"
  | Bool true => "true"
  | Bool false => "false"
  | Number n => NilZero.string_of_int (Z.to_int n)
  | Str s => s
  end.

(** An object: its properties in the order the engine enumerates (and
    [JSON.stringify] writes) them: the array indices in ascending order
    first, then the other keys in creation order.  Writing a key that is
    already present replaces its value and keeps its position. *)
Definition Object := list (string * Value).

(** An array index: the canonical decimal spelling of an integer from [0]
    to [2^32 - 2]. *)
Definition arrayIndex (k : string) : option Z :=
  match NilZero.uint_of_string k with
  | Some u =>
      let n := N.of_uint u in
      if ((NilZero.string_of_uint (N.to_uint n) =? k)%string
          && (Z.of_N n <? 4294967295))%bool
      then Some (Z.of_N n)
      else None
  | None => None
  end.

(** Whether a new key [k] is enumerated before the existing key [k']. *)
Definition precedes (k k' : string) : bool :=
  match arrayIndex k, arrayIndex k' with
  | Some n, Some n' => n <? n'
  | Some _, None => true
  | None, _ => false
  end.

Fixpoint has (o : Object) (k : string) : bool :=
  match o with
  | [] => false
  | (k', _) :: o' => (k' =? k)%string || has o' k
  end.

Fixpoint replace (o : Object) (k : string) (v : Value) : Object :=
  match o with
  | [] => []
  | (k', v') :: o' =>
      if (k' =? k)%string then (k, v) :: o' else (k', v') :: replace o' k v
  end.

Fixpoint place (o : Object) (k : string) (v : Value) : Object :=
  match o with
  | [] => [(k, v)]
  | (k', v') :: o' =>
      if precedes k k' then (k, v) :: o else (k', v') :: place o' k v
  end.

Definition set (o : Object) (k : string) (v : Value) : Object :=
  if has o k then replace o k v else place o k v.

(** An object literal [{ k1: v1, [k2]: v2, ... }]. *)
Definition literal (props : list (string * Value)) : Object :=
  fold_left (fun o kv => set o (fst kv) (snd kv)) props [].


(** Exceptions. *)
Inductive Exception :=
| TypeError (message : string)
| Error (message : string).

Inductive Completion (A : Type) :=
| Normal (a : A)
| Throw (e : Exception).
Arguments Normal {A} a.
Arguments Throw {A} e.

(** [s.split(sep)] for a one-character separator. *)
Fixpoint split (sep : ascii) (s : string) : list string :=
  match s with
  | EmptyString => [EmptyString]
  | String c s' =>
      if Ascii.eqb c sep then EmptyString :: split sep s'
      else match split sep s' with
           | [] => [String c EmptyString]
           | piece :: pieces => String c piece :: pieces
           end
  end.

(** [s.includes(sub)]. *)
Fixpoint includes (s sub : string) : bool :=
  String.prefix sub s ||
  match s with
  | EmptyString => false
  | String _ s' => includes s' sub
  end.

(** Whether the character occurs in the string. *)
Fixpoint occurs (c : ascii) (s : string) : bool :=
  match s with
  | EmptyString => false
  | String c' s' => Ascii.eqb c' c || occurs c s'
  end.

(** [xs.join(', ')]. *)
Fixpoint join (sep : string) (xs : list string) : string :=
  match xs with
  | [] => ""
  | [x] => x
  | x :: xs' => x ++ sep ++ join sep xs'
  end.

(** A promise: pending ([None]) or settled once and for all. *)
Inductive Settled (A : Type) :=
| Resolved (a : A)
| Rejected (message : string).
Arguments Resolved {A} a.
Arguments Rejected {A} message.

Definition Promise (A : Type) := option (Settled A).

Definition settle {A} (p : Promise A) (s : Settled A) : Promise A :=
  match p with
  | Some _ => p
  | None => Some s
  end.

(** [xs.sort(cmp)]: a stable insertion sort.  [cmp a b] is the sign test
    the engine performs on the comparator's result: [true] when the result
    is positive, i.e. [a] goes after [b]; a [NaN] result counts as zero.
    For a consistent comparator every stable sort gives this order; for an
    inconsistent one (a [NaN] between some elements only) the language
    leaves the order to the engine, and this is one admissible order. *)
Fixpoint insert {A} (after : A -> A -> bool) (x : A) (xs : list A) : list A :=
  match xs with
  | [] => [x]
  | y :: ys => if after x y then y :: insert after x ys else x :: y :: ys
  end.

Definition sort {A} (after : A -> A -> bool) (xs : list A) : list A :=
  fold_right (fun x acc => insert after x acc) [] xs.

End Js.

(* ================================================================== *)
(** * config.js: the provider directory *)
(* ================================================================== *)

Module Config.

Record Endpoint := { host : string; port : Z; secure : bool }.

Record Provider := {
  name : string;
  imap : option Endpoint;
  pop3 : option Endpoint;
  smtp : option Endpoint;
  requiresAppPassword : bool;
  authURL : option string
}.

Definition gmail : Provider := {|
  name := "Gmail";
  imap := Some {| host := "imap.gmail.com"; port := 993; secure := true |};
  pop3 := Some {| host := "pop.gmail.com"; port := 995; secure := true |};
  smtp := Some {| host := "smtp.gmail.com"; port := 587; secure := false |};
  requiresAppPassword := true;
  authURL := Some "https://myaccount.google.com/apppasswords" |}.

Definition outlook : Provider := {|
  name := "Outlook/Hotmail";
  imap := Some {| host := "outlook.office365.com"; port := 993; secure := true |};
  pop3 := Some {| host := "outlook.office365.com"; port := 995; secure := true |};
  smtp := Some {| host := "smtp-mail.outlook.com"; port := 587; secure := false |};
  requiresAppPassword := true;
  authURL := Some "https://account.microsoft.com/security/app-passwords" |}.

Definition yandex : Provider := {|
  name := "Yandex";
  imap := Some {| host := "imap.yandex.ru"; port := 993; secure := true |};
  pop3 := Some {| host := "pop.yandex.ru"; port := 995; secure := true |};
  smtp := Some {| host := "smtp.yandex.ru"; port := 587; secure := false |};
  requiresAppPassword := true;
  authURL := Some "https://passport.yandex.ru/profile/app-passwords" |}.

Definition yahoo : Provider := {|
  name := "Yahoo";
  imap := Some {| host := "imap.mail.yahoo.com"; port := 993; secure := true |};
  pop3 := Some {| host := "pop.mail.yahoo.com"; port := 995; secure := true |};
  smtp := Some {| host := "smtp.mail.yahoo.com"; port := 587; secure := false |};
  requiresAppPassword := true;
  authURL := Some "https://login.yahoo.com/account/security/app-passwords" |}.

Definition custom : Provider := {|
  name := "Custom Server";
  imap := None;
  pop3 := None;
  smtp := None;
  requiresAppPassword := false;
  authURL := None |}.

(** [config.PROVIDERS], in the order [Object.keys] enumerates it. *)
Definition PROVIDERS : list (string * Provider) :=
  [ ("gmail", gmail); ("outlook", outlook); ("yandex", yandex);
    ("yahoo", yahoo); ("custom", custom) ].

(** [config.LOGGING.logToAPI] and [config.LOGGING.logEvents]. *)
Definition logToAPI : bool := true.

Definition logEvents : list string :=
  ["connection_test"; "connection_result"; "emails_fetched"; "email_sent";
   "api_call"; "error"; "login_attempt"; "logout"].

End Config.

(* ================================================================== *)
(** * emailProviders.js *)
(* ================================================================== *)

Module EmailProviders.
Import Config.

Section Resolver.

(** [String.prototype.toLowerCase]; the resolver is modelled for any
    such function, no property of it is used. *)
Variable toLowerCase : string -> string.

(** The table the module closes over ([config.PROVIDERS]). *)
Variable providers : list (string * Provider).

(** [providers[key]]. *)
Fixpoint lookup (table : list (string * Provider)) (key : string)
  : option Provider :=
  match table with
  | [] => None
  | (k, p) :: table' => if (k =? key)%string then Some p else lookup table' key
  end.

(** [(provider.imap && provider.imap.host.includes(domain)) ||
     (provider.pop3 && provider.pop3.host.includes(domain))]. *)
Definition hostMatches (domain : string) (provider : Provider) : bool :=
  match imap provider with
  | Some e => Js.includes (host e) domain
  | None => false
  end
  ||
  match pop3 provider with
  | Some e => Js.includes (host e) domain
  | None => false
  end.

(** The callback of [Object.keys(providers).find]. *)
Definition keyMatches (domain : string) (key : string) : bool :=
  match lookup providers key with
  | Some provider => hostMatches domain provider
  | None => false
  end.

(** [email.split('@')[1].toLowerCase()]: calling [toLowerCase] on the
    [undefined] second piece throws a [TypeError]. *)
Definition domainOf (email : string) : Js.Completion string :=
  match nth_error (Js.split "@"%char email) 1 with
  | Some piece => Js.Normal (toLowerCase piece)
  | None =>
      Js.Throw (Js.TypeError
        "Cannot read properties of undefined (reading 'toLowerCase')")
  end.

(** [getProviderSettings(email)]: the provider, or [null] ([None]). *)
Definition getProviderSettings (email : string)
  : Js.Completion (option Provider) :=
  match domainOf email with
  | Js.Throw e => Js.Throw e
  | Js.Normal domain =>
      match find (keyMatches domain) (map fst providers) with
      | Some providerKey =>
          if negb (providerKey =? "")%string
          then Js.Normal (lookup providers providerKey)
          else Js.Normal None
      | None => Js.Normal None
      end
  end.

End Resolver.

End EmailProviders.

(* ================================================================== *)
(** * emailUtils.js: what the mail parser hands to the adapters *)
(* ================================================================== *)

Module Mail.

(** The fields of [simpleParser]'s result that the adapters read:
    [parsed.from.text], [parsed.to.text], [parsed.subject], [parsed.date]
    (milliseconds since the epoch), [parsed.html], [parsed.text]; [None]
    is an absent (falsy) field. *)
Record Parsed := {
  from : option string;
  to : option string;
  subject : option string;
  date : option Z;
  html : option string;
  text : option string
}.

Definition unknown : string := "Неизвестно".
Definition noSubject : string := "Без темы".

(** [parsed.from ? parsed.from.text : 'Неизвестно']. *)
Definition addressText (a : option string) : string :=
  match a with
  | Some t => t
  | None => unknown
  end.

(** [parsed.subject || 'Без темы']: the empty subject is falsy. *)
Definition subjectText (s : option string) : string :=
  match s with
  | Some t => if (t =? "")%string then noSubject else t
  | None => noSubject
  end.

(** [parsed.date ? new Date(parsed.date).toLocaleString('ru-RU') : 'Неизвестно']. *)
Definition dateText (toLocaleString : Z -> string) (d : option Z) : string :=
  match d with
  | Some t => toLocaleString t
  | None => unknown
  end.

(** [parsed.html || parsed.text]. *)
Definition bodyText (h t : option string) : option string :=
  match h with
  | Some s => if (s =? "")%string then t else Some s
  | None => t
  end.

End Mail.

(* ================================================================== *)
(** * emailUtils.js: the SMTP adapter *)
(* ================================================================== *)

Module Smtp.

(** The options object given to [nodemailer.createTransport]. *)
Record TransportOptions := {
  host : Js.Value;
  port : Js.Value;
  secure : bool;
  user : string;
  pass : string;
  rejectUnauthorized : bool
}.

Record MailOptions := {
  mailFrom : string;
  mailTo : string;
  mailSubject : string;
  mailText : string;
  mailHtml : string
}.

Inductive Command :=
| CreateTransport (options : TransportOptions)
| Verify
| SendMail (mail : MailOptions).

(** The callback of [transporter.verify] / [transporter.sendMail]:
    [(error, success)] / [(error, info)]. *)
Inductive Event :=
| Done (error : option string) (value : Js.Value).

Record State := {
  settled : Js.Promise Js.Value;
  commands : list Command;
  callbackPending : bool
}.

(** [text.replace(/\n/g, '<br>')]. *)
Fixpoint replaceNewlines (s : string) : string :=
  match s with
  | EmptyString => EmptyString
  | String c s' =>
      if Ascii.eqb c "010"%char then "<br>" ++ replaceNewlines s'
      else String c (replaceNewlines s')
  end.

Section Adapter.

(** [config.HTTPS ? config.HTTPS.rejectUnauthorized : false], which is
    [process.env.NODE_ENV === 'production']. *)
Variable production : bool.

Definition transportOptions (user pass : string) (smtpHost smtpPort : Js.Value)
  : TransportOptions :=
  {| host := smtpHost;
     port := smtpPort;
     secure := Js.strictEqNum smtpPort 465;
     user := user;
     pass := pass;
     rejectUnauthorized := production |}.

(** Both adapters settle in the one callback they register. *)
Definition step (st : State) (ev : Event) : State :=
  match ev with
  | Done error value =>
      if callbackPending st then
        {| settled :=
             Js.settle (settled st)
               match error with
               | Some message => Js.Rejected message
               | None => Js.Resolved value
               end;
           commands := commands st;
           callbackPending := false |}
      else st
  end.

Definition testSmtpConnection (email password : string)
    (smtpHost smtpPort : Js.Value) (events : list Event) : State :=
  fold_left step events
    {| settled := None;
       commands :=
         [CreateTransport (transportOptions email password smtpHost smtpPort);
          Verify];
       callbackPending := true |}.

Definition sendEmail (from password : string) (smtpHost smtpPort : Js.Value)
    (to subject text : string) (events : list Event) : State :=
  fold_left step events
    {| settled := None;
       commands :=
         [CreateTransport (transportOptions from password smtpHost smtpPort);
          SendMail {| mailFrom := from;
                      mailTo := to;
                      mailSubject := subject;
                      mailText := text;
                      mailHtml := replaceNewlines text |}];
       callbackPending := true |}.

End Adapter.

End Smtp.

(* ================================================================== *)
(** * emailUtils.js: the POP3 adapters *)
(* ================================================================== *)

Module Pop3.

(** Calls on the [poplib] client, in the order they are made. *)
Inductive Command :=
| Connect
| Login (user pass : string)
| Stat
| Retr (i : Z)
| Quit.

(** The callbacks the client and the parser deliver. *)
Inductive Event :=
| OnError (message : string)
| OnConnect
| LoginDone (err : option string)
| StatDone (err : option string) (msgCount : Z)
| RetrDone (i : Z) (err : option string)
| ParserDone (i : Z) (result : string + Mail.Parsed).

(** One element of the array [fetchPop3Emails] resolves with. *)
Record Email := {
  id : Z;
  from : string;
  subject : string;
  date : string;
  body : option string
}.

(** The variables a call closes over, and the callbacks still outstanding:
    a node-style callback is called once, for a call that was made, and the
    socket connects once ([connected]), so that one session runs per call
    and [fetchCount] and [fetched], which the [stat] callback declares, exist
    once. *)
Record State (A : Type) := {
  settled : Js.Promise A;
  commands : list Command;
  logs : list string;
  emails : list Email;
  fetchCount : Z;
  fetched : Z;
  connected : bool;
  loginPending : bool;
  statPending : bool;
  retrPending : list Z;
  parsePending : list Z
}.
Arguments settled {A} _.
Arguments commands {A} _.
Arguments logs {A} _.
Arguments emails {A} _.
Arguments fetchCount {A} _.
Arguments fetched {A} _.
Arguments connected {A} _.
Arguments loginPending {A} _.
Arguments statPending {A} _.
Arguments retrPending {A} _.
Arguments parsePending {A} _.

Section Updates.
Context {A : Type}.

Definition call (c : Command) (st : State A) : State A :=
  {| settled := settled st; commands := commands st ++ [c]; logs := logs st;
     emails := emails st; fetchCount := fetchCount st; fetched := fetched st;
     connected := connected st; loginPending := loginPending st;
     statPending := statPending st; retrPending := retrPending st;
     parsePending := parsePending st |}.

Definition settleWith (s : Js.Settled A) (st : State A) : State A :=
  {| settled := Js.settle (settled st) s; commands := commands st;
     logs := logs st; emails := emails st; fetchCount := fetchCount st;
     fetched := fetched st; connected := connected st;
     loginPending := loginPending st; statPending := statPending st;
     retrPending := retrPending st; parsePending := parsePending st |}.

Definition resolve (a : A) : State A -> State A := settleWith (Js.Resolved a).
Definition reject (message : string) : State A -> State A :=
  settleWith (Js.Rejected message).

(** [logger.error(message)]. *)
Definition logError (message : string) (st : State A) : State A :=
  {| settled := settled st; commands := commands st;
     logs := logs st ++ [message]; emails := emails st;
     fetchCount := fetchCount st; fetched := fetched st;
     connected := connected st; loginPending := loginPending st;
     statPending := statPending st; retrPending := retrPending st;
     parsePending := parsePending st |}.

Definition push (e : Email) (st : State A) : State A :=
  {| settled := settled st; commands := commands st; logs := logs st;
     emails := emails st ++ [e]; fetchCount := fetchCount st;
     fetched := fetched st; connected := connected st;
     loginPending := loginPending st; statPending := statPending st;
     retrPending := retrPending st; parsePending := parsePending st |}.

Definition setCounters (n k : Z) (st : State A) : State A :=
  {| settled := settled st; commands := commands st; logs := logs st;
     emails := emails st; fetchCount := n; fetched := k;
     connected := connected st; loginPending := loginPending st;
     statPending := statPending st; retrPending := retrPending st;
     parsePending := parsePending st |}.

Definition incrFetched (st : State A) : State A :=
  setCounters (fetchCount st) (fetched st + 1) st.

Definition setPending (c l s : bool) (r p : list Z) (st : State A) : State A :=
  {| settled := settled st; commands := commands st; logs := logs st;
     emails := emails st; fetchCount := fetchCount st; fetched := fetched st;
     connected := c; loginPending := l; statPending := s;
     retrPending := r; parsePending := p |}.

End Updates.

(** The state right after [client.connect()]. *)
Definition start (A : Type) : State A :=
  {| settled := None; commands := [Connect]; logs := []; emails := [];
     fetchCount := 0; fetched := 0; connected := false;
     loginPending := false; statPending := false;
     retrPending := []; parsePending := [] |}.

Definition mem (i : Z) (l : list Z) : bool := existsb (Z.eqb i) l.

Fixpoint removeOne (i : Z) (l : list Z) : list Z :=
  match l with
  | [] => []
  | j :: l' => if i =? j then l' else j :: removeOne i l'
  end.

(** The indices [1 .. n] of the retrieval loop. *)
Definition indices (n : Z) : list Z := map Z.of_nat (seq 1 (Z.to_nat n)).

(** ** [testPop3Connection] *)

Definition testPop3Connection_step (email password : string)
    (st : State bool) (ev : Event) : State bool :=
  match ev with
  | OnError message =>
      reject ("POP3 connection error: " ++ message) (call Quit st)
  | OnConnect =>
      if connected st then st
      else setPending true true (statPending st) (retrPending st)
             (parsePending st) (call (Login email password) st)
  | LoginDone err =>
      if loginPending st then
        let st := setPending (connected st) false (statPending st)
                    (retrPending st) (parsePending st) st in
        match err with
        | Some message =>
            reject ("POP3 login failed: " ++ message) (call Quit st)
        | None => resolve true (call Quit st)
        end
      else st
  | _ => st
  end.

Definition testPop3Connection (email password : string)
    (events : list Event) : State bool :=
  fold_left (testPop3Connection_step email password) events (start bool).

(** ** [fetchPop3Emails] *)

Section Fetch.

(** [new Date(ms).toLocaleString('ru-RU')]. *)
Variable toLocaleString : Z -> string.

Definition summary (i : Z) (parsed : Mail.Parsed) : Email :=
  {| id := i;
     from := Mail.addressText (Mail.from parsed);
     subject := Mail.subjectText (Mail.subject parsed);
     date := Mail.dateText toLocaleString (Mail.date parsed);
     body := Mail.bodyText (Mail.html parsed) (Mail.text parsed) |}.

(** The callback of [client.stat] on success. *)
Definition onStat (count msgCount : Z) (st : State (list Email))
  : State (list Email) :=
  let n := Z.min msgCount count in
  if n =? 0 then resolve [] (call Quit st)
  else
    let st := setCounters n 0 st in
    let st := fold_left (fun s i => call (Retr i) s) (indices n) st in
    setPending (connected st) (loginPending st) (statPending st)
      (retrPending st ++ indices n) (parsePending st) st.

(** The callback of [client.retr(i, ...)]. *)
Definition onRetr (i : Z) (err : option string) (st : State (list Email))
  : State (list Email) :=
  match err with
  | Some message => incrFetched (logError ("Ошибка POP3 RETR: " ++ message) st)
  | None =>
      setPending (connected st) (loginPending st) (statPending st)
        (retrPending st) (parsePending st ++ [i]) st
  end.

(** The callback of [simpleParser(data, ...)] for message [i]. *)
Definition onParsed (i : Z) (result : string + Mail.Parsed)
    (st : State (list Email)) : State (list Email) :=
  match result with
  | inl message => logError ("Ошибка разбора письма: " ++ message) st
  | inr parsed =>
      let st := incrFetched (push (summary i parsed) st) in
      if fetched st =? fetchCount st
      then resolve (emails st) (call Quit st)
      else st
  end.

Definition fetchPop3Emails_step (email password : string) (count : Z)
    (st : State (list Email)) (ev : Event) : State (list Email) :=
  match ev with
  | OnError message =>
      reject ("POP3 connection error: " ++ message) (call Quit st)
  | OnConnect =>
      if connected st then st
      else setPending true true (statPending st) (retrPending st)
             (parsePending st) (call (Login email password) st)
  | LoginDone err =>
      if loginPending st then
        let st := setPending (connected st) false (statPending st)
                    (retrPending st) (parsePending st) st in
        match err with
        | Some message =>
            reject ("POP3 login failed: " ++ message) (call Quit st)
        | None =>
            setPending (connected st) (loginPending st) true
              (retrPending st) (parsePending st) (call Stat st)
        end
      else st
  | StatDone err msgCount =>
      if statPending st then
        let st := setPending (connected st) (loginPending st) false
                    (retrPending st) (parsePending st) st in
        match err with
        | Some message =>
            reject ("POP3 stat failed: " ++ message) (call Quit st)
        | None => onStat count msgCount st
        end
      else st
  | RetrDone i err =>
      if mem i (retrPending st) then
        onRetr i err
          (setPending (connected st) (loginPending st) (statPending st)
             (removeOne i (retrPending st)) (parsePending st) st)
      else st
  | ParserDone i result =>
      if mem i (parsePending st) then
        onParsed i result
          (setPending (connected st) (loginPending st) (statPending st)
             (retrPending st) (removeOne i (parsePending st)) st)
      else st
  end.

Definition fetchPop3Emails (email password : string) (count : Z)
    (events : list Event) : State (list Email) :=
  fold_left (fetchPop3Emails_step email password count) events
    (start (list Email)).

End Fetch.

End Pop3.

(* ================================================================== *)
(** * emailUtils.js: the folder tree flattener *)
(* ================================================================== *)

Module Folders.

(** The object [imap.getBoxes] yields: its properties in [for ... in]
    order, each with the box's [delimiter] and its [children] ([None] is
    [null], [Some Empty] an object without properties). *)
#[warnings="-register-all"]
Inductive Boxes :=
| Empty
| Entry (name : string) (delimiter : string) (children : option Boxes)
        (rest : Boxes).

(** One element of the array [extractFolderNames] returns. *)
Record Folder := {
  name : string;
  delimiter : string;
  children : option Boxes
}.

Fixpoint extractFolderNames (boxes : Boxes) (prefix : string) : list Folder :=
  match boxes with
  | Empty => []
  | Entry name delimiter children rest =>
      let fullName := prefix ++ name in
      ({| name := fullName; delimiter := delimiter; children := children |}
       :: match children with
          | Some inner => extractFolderNames inner (fullName ++ delimiter)
          | None => []
          end)
      ++ extractFolderNames rest prefix
  end.

(** What "depth-first, parent before children, names qualified by the
    ancestors" means, stated apart from the code: the nodes of the tree in
    preorder, each as the path of (name, delimiter) pairs leading from a
    root entry to it, and the name such a path spells. *)
Fixpoint preorderPaths (boxes : Boxes) : list (list (string * string)) :=
  match boxes with
  | Empty => []
  | Entry name delimiter children rest =>
      ([(name, delimiter)]
       :: match children with
          | Some inner => map (cons (name, delimiter)) (preorderPaths inner)
          | None => []
          end)
      ++ preorderPaths rest
  end.

Fixpoint qualifiedName (prefix : string) (path : list (string * string))
  : string :=
  match path with
  | [] => prefix
  | (name, delimiter) :: below =>
      match below with
      | [] => prefix ++ name
      | _ :: _ => qualifiedName ((prefix ++ name) ++ delimiter) below
      end
  end.

End Folders.

(* ================================================================== *)
(** * emailUtils.js: the IMAP adapters *)
(* ================================================================== *)

Module Imap.

(** Calls on the [imap] client, in the order they are made. *)
Inductive Command :=
| Connect
| OpenBox (folder : string) (readOnly : bool)
| SeqFetch (first last : Z)
| AddFlags (messageIds : list Z) (flag : string)
| GetBoxes
| Close.

(** The events and callbacks the client and the parser deliver.  A message
    is named by its position among the ['message'] events of the fetch. *)
Inductive Event :=
| OnReady
| OnError (message : string)
| OpenBoxDone (err : option string) (total : Z)
| FetchMessage
| MessageBody (m : nat)
| ParserDone (m : nat) (result : string + Mail.Parsed)
| MessageAttributes (m : nat) (flags : list string) (uid : Z)
| FetchError (message : string)
| FetchEnd
| AddFlagsDone (err : option string)
| GetBoxesDone (err : option string) (boxes : Folders.Boxes).

(** The [emailData] object of one message; [None] is a property not yet
    assigned. *)
Record EmailData := {
  from : option string;
  to : option string;
  subject : option string;
  date : option string;
  body : option string;
  unread : option bool;
  uid : option Z
}.

Definition emptyData : EmailData :=
  {| from := None; to := None; subject := None; date := None; body := None;
     unread := None; uid := None |}.

(** The listeners and callbacks registered and not yet called: [once]
    listeners fire once, node-style callbacks are called once. *)
Record Listeners := {
  readyArmed : bool;
  errorArmed : bool;
  openBoxPending : bool;
  callbackPending : bool;
  fetchOpen : bool;
  fetchErrorArmed : bool;
  fetchEndArmed : bool
}.

(** The [emailData] objects created so far, by message, and the array
    [emails], which holds references to them. *)
Record Store := {
  heap : list EmailData;
  attributesArmed : list nat;
  parsing : list nat;
  emails : list nat
}.

Record State (A : Type) := {
  settled : Js.Promise A;
  commands : list Command;
  logs : list string;
  listeners : Listeners;
  store : Store
}.
Arguments settled {A} _.
Arguments commands {A} _.
Arguments logs {A} _.
Arguments listeners {A} _.
Arguments store {A} _.

Section Updates.
Context {A : Type}.

Definition call (c : Command) (st : State A) : State A :=
  {| settled := settled st; commands := commands st ++ [c]; logs := logs st;
     listeners := listeners st; store := store st |}.

Definition settleWith (s : Js.Settled A) (st : State A) : State A :=
  {| settled := Js.settle (settled st) s; commands := commands st;
     logs := logs st; listeners := listeners st; store := store st |}.

Definition resolve (a : A) : State A -> State A := settleWith (Js.Resolved a).
Definition reject (message : string) : State A -> State A :=
  settleWith (Js.Rejected message).

Definition logError (message : string) (st : State A) : State A :=
  {| settled := settled st; commands := commands st;
     logs := logs st ++ [message]; listeners := listeners st;
     store := store st |}.

Definition withListeners (l : Listeners) (st : State A) : State A :=
  {| settled := settled st; commands := commands st; logs := logs st;
     listeners := l; store := store st |}.

Definition withStore (s : Store) (st : State A) : State A :=
  {| settled := settled st; commands := commands st; logs := logs st;
     listeners := listeners st; store := s |}.

End Updates.

Definition disarmReady (l : Listeners) : Listeners :=
  {| readyArmed := false; errorArmed := errorArmed l;
     openBoxPending := openBoxPending l; callbackPending := callbackPending l;
     fetchOpen := fetchOpen l; fetchErrorArmed := fetchErrorArmed l;
     fetchEndArmed := fetchEndArmed l |}.

Definition disarmError (l : Listeners) : Listeners :=
  {| readyArmed := readyArmed l; errorArmed := false;
     openBoxPending := openBoxPending l; callbackPending := callbackPending l;
     fetchOpen := fetchOpen l; fetchErrorArmed := fetchErrorArmed l;
     fetchEndArmed := fetchEndArmed l |}.

Definition setOpenBox (b : bool) (l : Listeners) : Listeners :=
  {| readyArmed := readyArmed l; errorArmed := errorArmed l;
     openBoxPending := b; callbackPending := callbackPending l;
     fetchOpen := fetchOpen l; fetchErrorArmed := fetchErrorArmed l;
     fetchEndArmed := fetchEndArmed l |}.

Definition setCallback (b : bool) (l : Listeners) : Listeners :=
  {| readyArmed := readyArmed l; errorArmed := errorArmed l;
     openBoxPending := openBoxPending l; callbackPending := b;
     fetchOpen := fetchOpen l; fetchErrorArmed := fetchErrorArmed l;
     fetchEndArmed := fetchEndArmed l |}.

Definition setFetch (opened err fin : bool) (l : Listeners) : Listeners :=
  {| readyArmed := readyArmed l; errorArmed := errorArmed l;
     openBoxPending := openBoxPending l; callbackPending := callbackPending l;
     fetchOpen := opened; fetchErrorArmed := err; fetchEndArmed := fin |}.

(** The state right after [imap.connect()]. *)
Definition start (A : Type) : State A :=
  {| settled := None; commands := [Connect]; logs := [];
     listeners := {| readyArmed := true; errorArmed := true;
                     openBoxPending := false; callbackPending := false;
                     fetchOpen := false; fetchErrorArmed := false;
                     fetchEndArmed := false |};
     store := {| heap := []; attributesArmed := []; parsing := [];
                 emails := [] |} |}.

(** The two listeners every adapter registers the same way:
    [imap.once('error', err => reject(err))]. *)
Definition onError {A} (message : string) (st : State A) : State A :=
  if errorArmed (listeners st)
  then reject message (withListeners (disarmError (listeners st)) st)
  else st.

(** ** [testImapConnection] *)

Definition testImapConnection_step (st : State bool) (ev : Event)
  : State bool :=
  match ev with
  | OnReady =>
      if readyArmed (listeners st)
      then resolve true
             (call Close (withListeners (disarmReady (listeners st)) st))
      else st
  | OnError message => onError message st
  | _ => st
  end.

Definition testImapConnection (events : list Event) : State bool :=
  fold_left testImapConnection_step events (start bool).

(** ** [markAsRead] *)

Definition markAsRead_step (messageIds : list Z) (st : State bool)
    (ev : Event) : State bool :=
  match ev with
  | OnReady =>
      if readyArmed (listeners st)
      then call (OpenBox "INBOX" false)
             (withListeners (setOpenBox true (disarmReady (listeners st))) st)
      else st
  | OnError message => onError message st
  | OpenBoxDone err _ =>
      if openBoxPending (listeners st) then
        let st := withListeners (setOpenBox false (listeners st)) st in
        match err with
        | Some message => reject message st
        | None =>
            call (AddFlags messageIds "\Seen")
              (withListeners (setCallback true (listeners st)) st)
        end
      else st
  | AddFlagsDone err =>
      if callbackPending (listeners st) then
        let st := call Close
                    (withListeners (setCallback false (listeners st)) st) in
        match err with
        | Some message => reject message st
        | None => resolve true st
        end
      else st
  | _ => st
  end.

Definition markAsRead (messageIds : list Z) (events : list Event)
  : State bool :=
  fold_left (markAsRead_step messageIds) events (start bool).

(** ** [getFolders] *)

Definition getFolders_step (st : State (list Folders.Folder)) (ev : Event)
  : State (list Folders.Folder) :=
  match ev with
  | OnReady =>
      if readyArmed (listeners st)
      then call GetBoxes
             (withListeners (setCallback true (disarmReady (listeners st))) st)
      else st
  | OnError message => onError message st
  | GetBoxesDone err boxes =>
      if callbackPending (listeners st) then
        let st := call Close
                    (withListeners (setCallback false (listeners st)) st) in
        match err with
        | Some message => reject message st
        | None => resolve (Folders.extractFolderNames boxes "") st
        end
      else st
  | _ => st
  end.

Definition getFolders (events : list Event) : State (list Folders.Folder) :=
  fold_left getFolders_step events (start (list Folders.Folder)).

(** ** [fetchImapEmails] *)

Definition mem (m : nat) (l : list nat) : bool := existsb (Nat.eqb m) l.

Fixpoint removeOne (m : nat) (l : list nat) : list nat :=
  match l with
  | [] => []
  | k :: l' => if Nat.eqb m k then l' else k :: removeOne m l'
  end.

(** Assignment to the properties of the [m]-th [emailData] object. *)
Fixpoint update (m : nat) (f : EmailData -> EmailData) (h : list EmailData)
  : list EmailData :=
  match h, m with
  | [], _ => []
  | d :: h', O => f d :: h'
  | d :: h', S m' => d :: update m' f h'
  end.

Definition deref (h : list EmailData) (m : nat) : EmailData :=
  nth m h emptyData.

Section Fetch.

(** [new Date(ms).toLocaleString('ru-RU')]. *)
Variable toLocaleString : Z -> string.

(** [new Date(s).getTime()], [None] for an invalid date. *)
Variable dateParse : string -> option Z.

(** The assignments of the parser callback. *)
Definition assignParsed (parsed : Mail.Parsed) (d : EmailData) : EmailData :=
  {| from := Some (Mail.addressText (Mail.from parsed));
     to := Some (Mail.addressText (Mail.to parsed));
     subject := Some (Mail.subjectText (Mail.subject parsed));
     date := Some (Mail.dateText toLocaleString (Mail.date parsed));
     body := Mail.bodyText (Mail.html parsed) (Mail.text parsed);
     unread := unread d;
     uid := uid d |}.

(** The assignments of the ['attributes'] listener. *)
Definition assignAttributes (flags : list string) (id : Z) (d : EmailData)
  : EmailData :=
  {| from := from d; to := to d; subject := subject d; date := date d;
     body := body d;
     unread := Some (negb (existsb (String.eqb "\Seen") flags));
     uid := Some id |}.

(** [new Date(d.date)] as a time value; an absent date is invalid. *)
Definition timeOf (d : EmailData) : option Z :=
  match date d with
  | Some s => dateParse s
  | None => None
  end.

(** The comparator [(a, b) => new Date(b.date) - new Date(a.date)] is
    positive, and [a] sorts after [b], when both dates are valid and [b] is
    the later one; with an invalid date the difference is [NaN]. *)
Definition sortsAfter (a b : EmailData) : bool :=
  match timeOf b, timeOf a with
  | Some tb, Some ta => 0 <? tb - ta
  | _, _ => false
  end.

(** The callback of [imap.openBox] on success. *)
Definition onOpenBox (count total : Z) (st : State (list EmailData))
  : State (list EmailData) :=
  if total =? 0 then call Close (resolve [] st)
  else
    let fetchCount := Z.min count total in
    let first := Z.max 1 (total - fetchCount + 1) in
    let last := total in
    call (SeqFetch first last)
      (withListeners (setFetch true true true (listeners st)) st).

(** The listener of the fetch's ['end']. *)
Definition onFetchEnd (st : State (list EmailData)) : State (list EmailData) :=
  let st := call Close st in
  let s := store st in
  let sorted :=
    Js.sort (fun a b => sortsAfter (deref (heap s) a) (deref (heap s) b))
      (emails s) in
  let st := withStore {| heap := heap s; attributesArmed := attributesArmed s;
                         parsing := parsing s; emails := sorted |} st in
  resolve (map (deref (heap s)) sorted) st.

Definition fetchImapEmails_step (folder : string) (count : Z)
    (st : State (list EmailData)) (ev : Event) : State (list EmailData) :=
  let l := listeners st in
  let s := store st in
  match ev with
  | OnReady =>
      if readyArmed l
      then call (OpenBox folder true)
             (withListeners (setOpenBox true (disarmReady l)) st)
      else st
  | OnError message => onError message st
  | OpenBoxDone err total =>
      if openBoxPending l then
        let st := withListeners (setOpenBox false l) st in
        match err with
        | Some message => reject message st
        | None => onOpenBox count total st
        end
      else st
  | FetchMessage =>
      if fetchOpen l then
        withStore {| heap := heap s ++ [emptyData];
                     attributesArmed := attributesArmed s ++ [length (heap s)];
                     parsing := parsing s; emails := emails s |} st
      else st
  | MessageBody m =>
      if (m <? length (heap s))%nat then
        withStore {| heap := heap s; attributesArmed := attributesArmed s;
                     parsing := parsing s ++ [m]; emails := emails s |} st
      else st
  | ParserDone m result =>
      if mem m (parsing s) then
        let s := {| heap := heap s; attributesArmed := attributesArmed s;
                    parsing := removeOne m (parsing s); emails := emails s |} in
        match result with
        | inl message =>
            logError ("Ошибка разбора письма: " ++ message) (withStore s st)
        | inr parsed =>
            withStore {| heap := update m (assignParsed parsed) (heap s);
                         attributesArmed := attributesArmed s;
                         parsing := parsing s; emails := emails s |} st
        end
      else st
  | MessageAttributes m flags id =>
      if mem m (attributesArmed s) then
        withStore {| heap := update m (assignAttributes flags id) (heap s);
                     attributesArmed := removeOne m (attributesArmed s);
                     parsing := parsing s; emails := emails s ++ [m] |} st
      else st
  | FetchError message =>
      if fetchErrorArmed l
      then reject message
             (withListeners (setFetch (fetchOpen l) false (fetchEndArmed l) l) st)
      else st
  | FetchEnd =>
      if fetchEndArmed l
      then onFetchEnd
             (withListeners (setFetch (fetchOpen l) (fetchErrorArmed l) false l)
                st)
      else st
  | _ => st
  end.

Definition fetchImapEmails (folder : string) (count : Z)
    (events : list Event) : State (list EmailData) :=
  fold_left (fetchImapEmails_step folder count) events
    (start (list EmailData)).

End Fetch.

End Imap.

(* ================================================================== *)
(** * server.js: the request handlers *)
(* ================================================================== *)

Module Server.

(** [req.body.messageIds]: an array of numbers, or a value that is not an
    array ([NotArray Js.Undefined] when the field is missing). *)
Inductive MessageIds :=
| NotArray (v : Js.Value)
| Ids (ids : list Z).

(** [req.body]: the fields the handlers destructure.  Hosts, ports and the
    protocol are whatever the JSON body carries. *)
Record Body := {
  email : string;
  password : string;
  fetchProtocol : Js.Value;
  imapHost : Js.Value;
  imapPort : Js.Value;
  pop3Host : Js.Value;
  pop3Port : Js.Value;
  smtpHost : Js.Value;
  smtpPort : Js.Value;
  to : string;
  subject : string;
  text : string;
  messageIds : MessageIds
}.

(** The same body with another [fetchProtocol]. *)
Definition withProtocol (v : Js.Value) (b : Body) : Body :=
  {| email := email b; password := password b; fetchProtocol := v;
     imapHost := imapHost b; imapPort := imapPort b;
     pop3Host := pop3Host b; pop3Port := pop3Port b;
     smtpHost := smtpHost b; smtpPort := smtpPort b;
     to := to b; subject := subject b; text := text b;
     messageIds := messageIds b |}.

(** The account and server an adapter is pointed at. *)
Record Target := {
  user : string;
  pass : string;
  host : Js.Value;
  port : Js.Value
}.

(** The adapter calls a handler makes, in order. *)
Inductive Call :=
| TestImap (t : Target)
| TestPop3 (t : Target)
| TestSmtp (t : Target)
| SendEmail (t : Target) (to subject text : string)
| MarkAsRead (t : Target) (messageIds : list Z).

(** What the mail servers deliver to each adapter call. *)
Record Network := {
  onTestImap : Target -> list Imap.Event;
  onTestPop3 : Target -> list Pop3.Event;
  onTestSmtp : Target -> list Smtp.Event;
  onSendEmail : Target -> list Smtp.Event;
  onMarkAsRead : Target -> list Imap.Event
}.

Inductive Response :=
| BadRequest (errors : list string)
| Json (body : Js.Object).

(** How a handler ends: it sends a response, or its promise rejects with an
    exception nothing catches, or it awaits a promise that never settles. *)
Inductive Outcome :=
| Sent (r : Response)
| Uncaught (e : Js.Exception)
| Waiting.

Record Handled := { outcome : Outcome; calls : list Call }.

(** [validationResult(req)]: the messages of the failed checks. *)
Definition validationErrors (checks : list (bool * string)) : list string :=
  map snd (filter (fun c => negb (fst c)) checks).

Definition notEmpty (s : string) : bool := negb (s =? "")%string.

(** [providerSettings ? providerSettings.imap.host : imapHost], for any
    endpoint and field: reading a field of an endpoint the provider lacks
    throws. *)
Definition final (providerSettings : option Config.Provider)
    (endpoint : Config.Provider -> option Config.Endpoint)
    (field : Config.Endpoint -> Js.Value) (supplied : Js.Value)
  : Js.Completion Js.Value :=
  match providerSettings with
  | Some provider =>
      match endpoint provider with
      | Some e => Js.Normal (field e)
      | None =>
          Js.Throw (Js.TypeError "Cannot read properties of undefined")
      end
  | None => Js.Normal supplied
  end.

Definition hostOf (e : Config.Endpoint) : Js.Value := Js.Str (Config.host e).
Definition portOf (e : Config.Endpoint) : Js.Value := Js.Number (Config.port e).

(** The six [final...] constants of a handler. *)
Record Settings := {
  finalImapHost : Js.Value;
  finalImapPort : Js.Value;
  finalPop3Host : Js.Value;
  finalPop3Port : Js.Value;
  finalSmtpHost : Js.Value;
  finalSmtpPort : Js.Value
}.

Definition bind {A B} (c : Js.Completion A) (k : A -> Js.Completion B)
  : Js.Completion B :=
  match c with
  | Js.Normal a => k a
  | Js.Throw e => Js.Throw e
  end.

Notation "x <- c ;; k" := (bind c (fun x => k))
  (at level 61, c at next level, right associativity).

Definition settings (providerSettings : option Config.Provider) (b : Body)
  : Js.Completion Settings :=
  ih <- final providerSettings Config.imap hostOf (imapHost b) ;;
  ip <- final providerSettings Config.imap portOf (imapPort b) ;;
  ph <- final providerSettings Config.pop3 hostOf (pop3Host b) ;;
  pp <- final providerSettings Config.pop3 portOf (pop3Port b) ;;
  sh <- final providerSettings Config.smtp hostOf (smtpHost b) ;;
  sp <- final providerSettings Config.smtp portOf (smtpPort b) ;;
  Js.Normal {| finalImapHost := ih; finalImapPort := ip;
               finalPop3Host := ph; finalPop3Port := pp;
               finalSmtpHost := sh; finalSmtpPort := sp |}.

Definition imapSettingsError : string :=
  "Не удалось определить настройки IMAP сервера. Пожалуйста, укажите хост и порт вручную.".
Definition pop3SettingsError : string :=
  "Не удалось определить настройки POP3 сервера. Пожалуйста, укажите хост и порт вручную.".
Definition unknownProtocolError : string := "Неизвестный протокол получения.".

(** [{ success: false, error }]. *)
Definition failure (message : string) : Response :=
  Json (Js.literal [("success", Js.Bool false); ("error", Js.Str message)]).

(** [try { await adapter; ok = true } catch (error) { errs.push(...) }]:
    the flag and the error list after the block, or [None] while the promise
    is pending. *)
Definition tried {A} (p : Js.Promise A) (leg : string) (errs : list string)
  : option (bool * list string) :=
  match p with
  | Some (Js.Resolved _) => Some (true, errs)
  | Some (Js.Rejected message) => Some (false, (errs ++ [(leg ++ ": " ++ message)%string])%list)
  | None => None
  end.

(** How the receive leg of [/api/test-connection] ends. *)
Inductive Leg :=
| Checked (fetchResult : bool) (errs : list string)
| Returned (r : Response)
| Pending.

Section Handlers.

Variable toLowerCase : string -> string.

(** [isEmail] of express-validator. *)
Variable isEmail : string -> bool.

(** [isInt] of express-validator, on a number. *)
Variable isInt : Z -> bool.

(** [process.env.NODE_ENV === 'production']. *)
Variable production : bool.

Variable net : Network.

Definition getProviderSettings : string -> Js.Completion (option Config.Provider) :=
  EmailProviders.getProviderSettings toLowerCase Config.PROVIDERS.

(** The three handlers of this section call [logActivity] with actions
    that [config.LOGGING.logEvents] does not list, for which it returns at
    once, without a post. *)

(** ** [POST /api/test-connection] *)

Definition receiveLeg (b : Body) (s : Settings) : Leg * list Call :=
  if Js.strictEqStr (fetchProtocol b) "imap" then
    if negb (Js.truthy (finalImapHost s)) || negb (Js.truthy (finalImapPort s))
    then (Returned (failure imapSettingsError), [])
    else
      let t := {| user := email b; pass := password b;
                  host := finalImapHost s; port := finalImapPort s |} in
      (match tried (Imap.settled (Imap.testImapConnection (onTestImap net t)))
               "IMAP" [] with
       | Some (ok, errs) => Checked ok errs
       | None => Pending
       end, [TestImap t])
  else if Js.strictEqStr (fetchProtocol b) "pop3" then
    if negb (Js.truthy (finalPop3Host s)) || negb (Js.truthy (finalPop3Port s))
    then (Returned (failure pop3SettingsError), [])
    else
      let t := {| user := email b; pass := password b;
                  host := finalPop3Host s; port := finalPop3Port s |} in
      (match tried (Pop3.settled
                      (Pop3.testPop3Connection (email b) (password b)
                         (onTestPop3 net t)))
               "POP3" [] with
       | Some (ok, errs) => Checked ok errs
       | None => Pending
       end, [TestPop3 t])
  else (Checked false [unknownProtocolError], []).

(** The final [res.json({ success, [fetchProtocol], smtp, error })]. *)
Definition report (b : Body) (fetchResult smtpResult : bool)
    (errs : list string) : Response :=
  Json (Js.literal
          [("success", Js.Bool (fetchResult && smtpResult));
           (Js.toPropertyKey (fetchProtocol b), Js.Bool fetchResult);
           ("smtp", Js.Bool smtpResult);
           ("error", match errs with
                     | [] => Js.Null
                     | _ => Js.Str (Js.join ", " errs)
                     end)]).

Definition postTestConnection (b : Body) : Handled :=
  match validationErrors
          [(isEmail (email b), "Некорректиный email");
           (notEmpty (password b), "Пароль не может быть пустым")] with
  | (_ :: _) as errors =>
      {| outcome := Sent (BadRequest errors); calls := [] |}
  | [] =>
      match (providerSettings <- getProviderSettings (email b) ;;
             settings providerSettings b) with
      | Js.Throw e => {| outcome := Uncaught e; calls := [] |}
      | Js.Normal s =>
          match receiveLeg b s with
          | (Returned r, cs) => {| outcome := Sent r; calls := cs |}
          | (Pending, cs) => {| outcome := Waiting; calls := cs |}
          | (Checked fetchResult errs, cs) =>
              let t := {| user := email b; pass := password b;
                          host := finalSmtpHost s; port := finalSmtpPort s |} in
              {| outcome :=
                   match tried (Smtp.settled
                                  (Smtp.testSmtpConnection production
                                     (email b) (password b)
                                     (finalSmtpHost s) (finalSmtpPort s)
                                     (onTestSmtp net t)))
                           "SMTP" errs with
                   | Some (smtpResult, errs) =>
                       Sent (report b fetchResult smtpResult errs)
                   | None => Waiting
                   end;
                 calls := cs ++ [TestSmtp t] |}
          end
      end
  end.

(** ** [POST /api/send-email] *)

Definition postSendEmail (b : Body) : Handled :=
  match validationErrors
          [(isEmail (email b), "Некорректный email отправителя");
           (notEmpty (password b), "Пароль не может быть пустым");
           (isEmail (to b), "Некорректный email получателя");
           (notEmpty (subject b), "Тема не может быть пустой");
           (notEmpty (text b), "Тело письма не может быть пустым")] with
  | (_ :: _) as errors =>
      {| outcome := Sent (BadRequest errors); calls := [] |}
  | [] =>
      match (providerSettings <- getProviderSettings (email b) ;;
             sh <- final providerSettings Config.smtp hostOf (smtpHost b) ;;
             sp <- final providerSettings Config.smtp portOf (smtpPort b) ;;
             Js.Normal (sh, sp)) with
      | Js.Throw e => {| outcome := Uncaught e; calls := [] |}
      | Js.Normal (sh, sp) =>
          if negb (Js.truthy sh)
          then {| outcome :=
                    Sent (failure "Не удалось определить настройки SMTP сервера.");
                  calls := [] |}
          else
            let t := {| user := email b; pass := password b;
                        host := sh; port := sp |} in
            {| outcome :=
                 match Smtp.settled
                         (Smtp.sendEmail production (email b) (password b)
                            sh sp (to b) (subject b) (text b)
                            (onSendEmail net t)) with
                 | Some (Js.Resolved _) =>
                     Sent (Json (Js.literal
                                   [("success", Js.Bool true);
                                    ("message", Js.Str "Email sent successfully")]))
                 | Some (Js.Rejected message) => Sent (failure message)
                 | None => Waiting
                 end;
               calls := [SendEmail t (to b) (subject b) (text b)] |}
      end
  end.

(** ** [POST /api/mark-read] *)

Definition imapUnresolved : string :=
  "Не удалось определить настройки IMAP сервера.".

(** [body('messageIds').isArray()] and the elements [messageIds.*]
    selects. *)
Definition isArray (m : MessageIds) : bool :=
  match m with
  | Ids _ => true
  | NotArray _ => false
  end.

Definition elements (m : MessageIds) : list Z :=
  match m with
  | Ids ids => ids
  | NotArray _ => []
  end.

Definition postMarkRead (b : Body) : Handled :=
  match validationErrors
          ([(isEmail (email b), "Некорректный email");
            (notEmpty (password b), "Пароль не может быть пустым");
            (isArray (messageIds b), "messageIds должен быть массивом")]
           ++ map (fun id => (isInt id, "messageIds должны быть числами"))
                (elements (messageIds b)))%list with
  | (_ :: _) as errors =>
      {| outcome := Sent (BadRequest errors); calls := [] |}
  | [] =>
      match (providerSettings <- getProviderSettings (email b) ;;
             ih <- final providerSettings Config.imap hostOf (imapHost b) ;;
             ip <- final providerSettings Config.imap portOf (imapPort b) ;;
             Js.Normal (ih, ip)) with
      | Js.Throw e => {| outcome := Uncaught e; calls := [] |}
      | Js.Normal (ih, ip) =>
          if negb (Js.truthy ih)
          then {| outcome := Sent (failure imapUnresolved); calls := [] |}
          else
            let t := {| user := email b; pass := password b;
                        host := ih; port := ip |} in
            {| outcome :=
                 match Imap.settled
                         (Imap.markAsRead (elements (messageIds b))
                            (onMarkAsRead net t)) with
                 | Some (Js.Resolved _) =>
                     Sent (Json (Js.literal
                                   [("success", Js.Bool true);
                                    ("message", Js.Str "Messages marked as read")]))
                 | Some (Js.Rejected message) => Sent (failure message)
                 | None => Waiting
                 end;
               calls := [MarkAsRead t (elements (messageIds b))] |}
      end
  end.

End Handlers.

End Server.

(* ================================================================== *)
(** * apiClient.js: the activity log *)
(* ================================================================== *)

Module ApiClient.

(** [config.LOGGING.logEvents.includes(action)]. *)
Definition includes (xs : list string) (x : string) : bool :=
  existsb (fun y => (y =? x)%string) xs.

(** Whether [logActivity(action, data)] gets as far as [API.post]. *)
Definition posts (action : string) : bool :=
  Config.logToAPI && includes Config.logEvents action.

(** [logActivity(action, data)], given what [API.post] settles to: the
    promise returned and whether the post was made.  A rejected post is
    caught and logged to the console. *)
Definition logActivity (action : string) (post : Js.Promise unit)
  : Js.Promise unit * bool :=
  if negb Config.logToAPI then (Some (Js.Resolved tt), false)
  else if negb (includes Config.logEvents action)
  then (Some (Js.Resolved tt), false)
  else
    (match post with
     | Some _ => Some (Js.Resolved tt)
     | None => None
     end, true).

(** The actions [server.js] logs, route by route. *)
Definition serverActions : list string :=
  ["custom_api_call";
   "connection_test_success"; "connection_test_failed";
   "emails_fetched"; "emails_fetch_failed";
   "email_sent_success"; "email_sent_failed";
   "emails_marked_read"; "emails_mark_read_failed";
   "folders_fetched"; "folders_fetch_failed"].

End ApiClient.

(* ================================================================== *)
(** * https-examples.js: calls to the API, with retry *)
(* ================================================================== *)

Module HttpsExamples.

(** What [apiClient(requestConfig)] settles to: a response, or an error
    that may carry the response of the server. *)
Record HttpResponse := {
  data : Js.Value;
  status : Z;
  headers : list (string * string)
}.

Record HttpError := {
  message : string;
  code : Js.Value;
  response : option HttpResponse
}.

Inductive Outcome :=
| Responds (r : HttpResponse)
| Fails (e : HttpError).

(** The object [makeSecureAPICall] returns:
    [{ success: true, data, status, headers, requestId }] or
    [{ success: false, error, status, code }]. *)
Inductive ApiResult :=
| Success (data : Js.Value) (status : Z) (headers : list (string * string))
    (requestId : option string)
| Failure (error : Js.Value) (status : Z) (code : Js.Value).

Definition success (r : ApiResult) : bool :=
  match r with
  | Success _ _ _ _ => true
  | Failure _ _ _ => false
  end.

(** [headers['x-request-id']]. *)
Fixpoint header (hs : list (string * string)) (k : string) : option string :=
  match hs with
  | [] => None
  | (k', v) :: hs' => if (k' =? k)%string then Some v else header hs' k
  end.

(** [makeSecureAPICall(endpoint, data, method)], given what the request
    settles to.  Every failure is caught and returned:
    [error: error.response?.data || error.message],
    [status: error.response?.status || 0]. *)
Definition makeSecureAPICall (o : Outcome) : ApiResult :=
  match o with
  | Responds r =>
      Success (data r) (status r) (headers r) (header (headers r) "x-request-id")
  | Fails e =>
      Failure
        match response e with
        | Some r => if Js.truthy (data r) then data r else Js.Str (message e)
        | None => Js.Str (message e)
        end
        match response e with
        | Some r => status r
        | None => 0
        end
        (code e)
  end.

(** What [makeAPICallWithRetry] does, in order: requests, and the waits
    between them in milliseconds. *)
Inductive Effect :=
| Request
| Sleep (ms : Z).

(** How [makeAPICallWithRetry] ends: it returns the result of a successful
    call, or
    [{ success: false, error: 'Max retries exceeded', lastError, attempts }],
    or it awaits a request that never settles. *)
Inductive RetryResult :=
| Returned (result : ApiResult)
| Exhausted (lastError : option ApiResult) (attempts : Z)
| Pending.

(** The loop [for (let attempt = 1; attempt <= maxRetries; attempt++)],
    from [attempt] on, over what the successive requests settle to.  The
    [catch] of the loop body is never entered, [makeSecureAPICall]
    catching every failure itself. *)
Fixpoint attemptsFrom (maxRetries attempt : Z) (lastError : option ApiResult)
    (outcomes : list Outcome) {struct outcomes} : RetryResult * list Effect :=
  if attempt <=? maxRetries then
    match outcomes with
    | [] => (Pending, [Request])
    | o :: rest =>
        let result := makeSecureAPICall o in
        if success result then (Returned result, [Request])
        else if attempt <? maxRetries then
          let (r, effects) :=
            attemptsFrom maxRetries (attempt + 1) lastError rest in
          (r, Request :: Sleep (2 ^ attempt * 1000) :: effects)
        else
          let (r, effects) :=
            attemptsFrom maxRetries (attempt + 1) (Some result) rest in
          (r, Request :: effects)
    end
  else (Exhausted lastError maxRetries, []).

Definition makeAPICallWithRetry (maxRetries : Z) (outcomes : list Outcome)
  : RetryResult * list Effect :=
  attemptsFrom maxRetries 1 None outcomes.

End HttpsExamples.

(* ================================================================== *)
(** * server.js: the routes that read the mailbox *)
(* ================================================================== *)

Module Mailbox.

(** [folder] and [count] of the body of [/api/fetch-emails]: absent, or a
    string and a number. *)
Record Window := {
  folder : option string;
  count : option Z
}.

(** The adapter calls and the activity posts a handler makes, in order. *)
Inductive Call :=
| FetchImap (t : Server.Target) (folder : string) (count : Z)
| FetchPop3 (t : Server.Target) (count : Z)
| GetFolders (t : Server.Target)
| LogPost (action : string).

(** What the mail servers deliver to each adapter call, and what the post
    of an activity settles to. *)
Record Network := {
  onFetchImap : Server.Target -> list Imap.Event;
  onFetchPop3 : Server.Target -> list Pop3.Event;
  onGetFolders : Server.Target -> list Imap.Event;
  onLogPost : string -> Js.Promise unit
}.

Inductive Emails :=
| ImapEmails (emails : list Imap.EmailData)
| Pop3Emails (emails : list Pop3.Email).

Definition lengthOf (emails : Emails) : Z :=
  match emails with
  | ImapEmails l => Z.of_nat (length l)
  | Pop3Emails l => Z.of_nat (length l)
  end.

(** The answers: [400 { success: false, errors }],
    [{ success: false, error }], [{ success: true, emails, count }] and
    [{ success: true, folders }]. *)
Inductive Response :=
| BadRequest (errors : list string)
| Failure (error : string)
| Fetched (emails : Emails) (count : Z)
| FolderList (folders : list Folders.Folder).

Inductive Outcome :=
| Sent (r : Response)
| Uncaught (e : Js.Exception)
| Waiting.

Record Handled := { outcome : Outcome; calls : list Call }.

(** [fetchProtocol.toUpperCase()], for its exception; the string itself is
    only logged. *)
Definition toUpperCase (v : Js.Value) : Js.Completion unit :=
  match v with
  | Js.Str _ => Js.Normal tt
  | Js.Undefined =>
      Js.Throw (Js.TypeError
        "Cannot read properties of undefined (reading 'toUpperCase')")
  | Js.Null =>
      Js.Throw (Js.TypeError
        "Cannot read properties of null (reading 'toUpperCase')")
  | _ => Js.Throw (Js.TypeError "fetchProtocol.toUpperCase is not a function")
  end.

Definition unknownProtocol : string := "Неизвестный протокол получения.".
Definition pop3Unresolved : string :=
  "Не удалось определить настройки POP3 сервера.".

Section Handlers.

Variable toLowerCase : string -> string.
Variable isEmail : string -> bool.
Variable toLocaleString : Z -> string.
Variable dateParse : string -> option Z.
Variable net : Network.

Notation "x <- c ;; k" := (Server.bind c (fun x => k))
  (at level 61, c at next level, right associativity).

(** [await logActivity(action, data)], then the rest of the handler. *)
Definition logged (action : string) (made : list Call) (r : Response)
  : Handled :=
  match ApiClient.logActivity action (onLogPost net action) with
  | (Some _, true) =>
      {| outcome := Sent r; calls := made ++ [LogPost action] |}
  | (Some _, false) => {| outcome := Sent r; calls := made |}
  | (None, true) => {| outcome := Waiting; calls := made ++ [LogPost action] |}
  | (None, false) => {| outcome := Waiting; calls := made |}
  end.

(** ** [POST /api/fetch-emails] *)

(** The [try] block up to the end of the fetch: an early answer, or the
    promise of the adapter called. *)
Inductive Attempt :=
| Answered (r : Response)
| Thrown (message : string)
| Awaited (p : Js.Promise Emails) (c : Call).

Definition imapEmails (p : Js.Promise (list Imap.EmailData))
  : Js.Promise Emails :=
  match p with
  | Some (Js.Resolved l) => Some (Js.Resolved (ImapEmails l))
  | Some (Js.Rejected m) => Some (Js.Rejected m)
  | None => None
  end.

Definition pop3Emails (p : Js.Promise (list Pop3.Email))
  : Js.Promise Emails :=
  match p with
  | Some (Js.Resolved l) => Some (Js.Resolved (Pop3Emails l))
  | Some (Js.Rejected m) => Some (Js.Rejected m)
  | None => None
  end.

Definition fetchAttempt (b : Server.Body) (w : Window)
    (ih ip ph pp : Js.Value) : Attempt :=
  let folder := match folder w with Some f => f | None => "INBOX" end in
  let count := match count w with Some n => n | None => 10 end in
  if Js.strictEqStr (Server.fetchProtocol b) "imap" then
    if negb (Js.truthy ih) then Answered (Failure Server.imapUnresolved)
    else
      let t := {| Server.user := Server.email b;
                  Server.pass := Server.password b;
                  Server.host := ih; Server.port := ip |} in
      Awaited
        (imapEmails
           (Imap.settled
              (Imap.fetchImapEmails toLocaleString dateParse folder count
                 (onFetchImap net t))))
        (FetchImap t folder count)
  else if Js.strictEqStr (Server.fetchProtocol b) "pop3" then
    if negb (Js.truthy ph) then Answered (Failure pop3Unresolved)
    else
      let t := {| Server.user := Server.email b;
                  Server.pass := Server.password b;
                  Server.host := ph; Server.port := pp |} in
      Awaited
        (pop3Emails
           (Pop3.settled
              (Pop3.fetchPop3Emails toLocaleString (Server.email b)
                 (Server.password b) count (onFetchPop3 net t))))
        (FetchPop3 t count)
  else Thrown unknownProtocol.

Definition postFetchEmails (b : Server.Body) (w : Window) : Handled :=
  match Server.validationErrors
          [(isEmail (Server.email b), "Некорректный email");
           (Server.notEmpty (Server.password b), "Пароль не может быть пустым")]
  with
  | (_ :: _) as errors =>
      {| outcome := Sent (BadRequest errors); calls := [] |}
  | [] =>
      match (_ <- toUpperCase (Server.fetchProtocol b) ;;
             providerSettings <-
               Server.getProviderSettings toLowerCase (Server.email b) ;;
             ih <- Server.final providerSettings Config.imap Server.hostOf
                     (Server.imapHost b) ;;
             ip <- Server.final providerSettings Config.imap Server.portOf
                     (Server.imapPort b) ;;
             ph <- Server.final providerSettings Config.pop3 Server.hostOf
                     (Server.pop3Host b) ;;
             pp <- Server.final providerSettings Config.pop3 Server.portOf
                     (Server.pop3Port b) ;;
             Js.Normal (ih, ip, ph, pp)) with
      | Js.Throw e => {| outcome := Uncaught e; calls := [] |}
      | Js.Normal (ih, ip, ph, pp) =>
          match fetchAttempt b w ih ip ph pp with
          | Answered r => {| outcome := Sent r; calls := [] |}
          | Thrown message => logged "emails_fetch_failed" [] (Failure message)
          | Awaited None c => {| outcome := Waiting; calls := [c] |}
          | Awaited (Some (Js.Rejected message)) c =>
              logged "emails_fetch_failed" [c] (Failure message)
          | Awaited (Some (Js.Resolved emails)) c =>
              logged "emails_fetched" [c] (Fetched emails (lengthOf emails))
          end
      end
  end.

(** ** [POST /api/get-folders] *)

Definition postGetFolders (b : Server.Body) : Handled :=
  match Server.validationErrors
          [(isEmail (Server.email b), "Некорректный email");
           (Server.notEmpty (Server.password b), "Пароль не может быть пустым")]
  with
  | (_ :: _) as errors =>
      {| outcome := Sent (BadRequest errors); calls := [] |}
  | [] =>
      if Js.strictEqStr (Server.fetchProtocol b) "pop3"
      then {| outcome := Sent (FolderList []); calls := [] |}
      else
        match (providerSettings <-
                 Server.getProviderSettings toLowerCase (Server.email b) ;;
               ih <- Server.final providerSettings Config.imap Server.hostOf
                       (Server.imapHost b) ;;
               ip <- Server.final providerSettings Config.imap Server.portOf
                       (Server.imapPort b) ;;
               Js.Normal (ih, ip)) with
        | Js.Throw e => {| outcome := Uncaught e; calls := [] |}
        | Js.Normal (ih, ip) =>
            if negb (Js.truthy ih)
            then {| outcome := Sent (Failure Server.imapUnresolved);
                    calls := [] |}
            else
              let t := {| Server.user := Server.email b;
                          Server.pass := Server.password b;
                          Server.host := ih; Server.port := ip |} in
              match Imap.settled (Imap.getFolders (onGetFolders net t)) with
              | Some (Js.Resolved folders) =>
                  logged "folders_fetched" [GetFolders t] (FolderList folders)
              | Some (Js.Rejected message) =>
                  logged "folders_fetch_failed" [GetFolders t] (Failure message)
              | None => {| outcome := Waiting; calls := [GetFolders t] |}
              end
        end
  end.

End Handlers.

End Mailbox.

(* ================================================================== *)
(** * A concrete runtime, for running the model *)
(* ================================================================== *)

Module Sample.

(** [toLowerCase] on ASCII letters. *)
Definition lowerChar (c : ascii) : ascii :=
  let n := nat_of_ascii c in
  if ((65 <=? n) && (n <=? 90))%nat then ascii_of_nat (n + 32) else c.

Fixpoint toLowerCase (s : string) : string :=
  match s with
  | EmptyString => EmptyString
  | String c s' => String (lowerChar c) (toLowerCase s')
  end.

(** A validator that accepts the strings with an ['@']. *)
Definition isEmail (s : string) : bool := Js.occurs "@"%char s.

(** [isInt] on a number: the engine spells a number in plain decimal
    digits, which is what [isInt] accepts, below [1e21] only. *)
Definition isInt (n : Z) : bool := Z.abs n <? 10 ^ 21.

(** A rendering of time values (the decimal digits of the time value, not
    the engine's ru-RU rendering), and its inverse on what it renders. *)
Definition toLocaleString (t : Z) : string :=
  NilZero.string_of_int (Z.to_int t).

Definition dateParse (s : string) : option Z :=
  match NilZero.int_of_string s with
  | Some i => Some (Z.of_int i)
  | None => None
  end.

Definition mail (sender : string) (t : Z) : Mail.Parsed :=
  {| Mail.from := Some sender; Mail.to := None; Mail.subject := Some "hello";
     Mail.date := Some t; Mail.html := None; Mail.text := Some "text" |}.

(** Mail servers that accept every connection and every command. *)
Definition friendly : Server.Network :=
  {| Server.onTestImap := fun _ => [Imap.OnReady];
     Server.onTestPop3 := fun _ => [Pop3.OnConnect; Pop3.LoginDone None];
     Server.onTestSmtp := fun _ => [Smtp.Done None (Js.Bool true)];
     Server.onSendEmail := fun _ => [Smtp.Done None (Js.Str "250 OK")];
     Server.onMarkAsRead :=
       fun _ => [Imap.OnReady; Imap.OpenBoxDone None 3; Imap.AddFlagsDone None] |}.

(** Mail servers on which only SMTP answers: IMAP and POP3 connections
    fail. *)
Definition smtpOnly : Server.Network :=
  {| Server.onTestImap := fun _ => [Imap.OnError "connect ECONNREFUSED"];
     Server.onTestPop3 := fun _ => [Pop3.OnError "connect ECONNREFUSED"];
     Server.onTestSmtp := fun _ => [Smtp.Done None (Js.Bool true)];
     Server.onSendEmail := fun _ => [Smtp.Done None (Js.Str "250 OK")];
     Server.onMarkAsRead := fun _ => [Imap.OnError "connect ECONNREFUSED"] |}.

(** A request body with the account only. *)
Definition account (email password : string) (protocol : Js.Value)
  : Server.Body :=
  {| Server.email := email; Server.password := password;
     Server.fetchProtocol := protocol;
     Server.imapHost := Js.Undefined; Server.imapPort := Js.Undefined;
     Server.pop3Host := Js.Undefined; Server.pop3Port := Js.Undefined;
     Server.smtpHost := Js.Undefined; Server.smtpPort := Js.Undefined;
     Server.to := ""; Server.subject := ""; Server.text := "";
     Server.messageIds := Server.NotArray Js.Undefined |}.

(** A request body whose host and port fields all name another server. *)
Definition overriding (email password : string) (protocol : Js.Value)
  : Server.Body :=
  {| Server.email := email; Server.password := password;
     Server.fetchProtocol := protocol;
     Server.imapHost := Js.Str "mail.example.org";
     Server.imapPort := Js.Number 143;
     Server.pop3Host := Js.Str "mail.example.org";
     Server.pop3Port := Js.Number 110;
     Server.smtpHost := Js.Str "mail.example.org";
     Server.smtpPort := Js.Number 465;
     Server.to := "friend@example.org"; Server.subject := "hello";
     Server.text := "text"; Server.messageIds := Server.Ids [7; 8] |}.

(** The same body asking to mark the messages [ids]. *)
Definition marking (ids : list Z) (b : Server.Body) : Server.Body :=
  {| Server.email := Server.email b; Server.password := Server.password b;
     Server.fetchProtocol := Server.fetchProtocol b;
     Server.imapHost := Server.imapHost b; Server.imapPort := Server.imapPort b;
     Server.pop3Host := Server.pop3Host b; Server.pop3Port := Server.pop3Port b;
     Server.smtpHost := Server.smtpHost b; Server.smtpPort := Server.smtpPort b;
     Server.to := Server.to b; Server.subject := Server.subject b;
     Server.text := Server.text b; Server.messageIds := Server.Ids ids |}.

(** The tree [A{B,C{D}}] with one delimiter throughout. *)
Definition tree (d : string) : Folders.Boxes :=
  Folders.Entry "A" d
    (Some (Folders.Entry "B" d None
             (Folders.Entry "C" d
                (Some (Folders.Entry "D" d None Folders.Empty))
                Folders.Empty)))
    Folders.Empty.

(** A mailbox with three folders and two messages, on servers that accept
    everything, and an API that takes every post. *)
Definition quiet : Mailbox.Network :=
  {| Mailbox.onFetchImap :=
       fun _ =>
         [Imap.OnReady; Imap.OpenBoxDone None 2;
          Imap.FetchMessage; Imap.MessageBody 0%nat;
          Imap.ParserDone 0%nat (inr (mail "a@example.org" 100));
          Imap.MessageAttributes 0%nat [] 1;
          Imap.FetchMessage; Imap.MessageBody 1%nat;
          Imap.ParserDone 1%nat (inr (mail "b@example.org" 200));
          Imap.MessageAttributes 1%nat [] 2;
          Imap.FetchEnd];
     Mailbox.onFetchPop3 :=
       fun _ =>
         [Pop3.OnConnect; Pop3.LoginDone None; Pop3.StatDone None 2;
          Pop3.RetrDone 1 None; Pop3.RetrDone 2 None;
          Pop3.ParserDone 1 (inr (mail "a@example.org" 100));
          Pop3.ParserDone 2 (inr (mail "b@example.org" 200))];
     Mailbox.onGetFolders :=
       fun _ => [Imap.OnReady; Imap.GetBoxesDone None (tree "/")];
     Mailbox.onLogPost := fun _ => Some (Js.Resolved tt) |}.

(** A request that names no folder and no count. *)
Definition anyWindow : Mailbox.Window :=
  {| Mailbox.folder := None; Mailbox.count := None |}.

(** A request to the API that is refused. *)
Definition refused : HttpsExamples.Outcome :=
  HttpsExamples.Fails
    {| HttpsExamples.message := "connect ECONNREFUSED";
       HttpsExamples.code := Js.Str "ECONNREFUSED";
       HttpsExamples.response := None |}.



End Sample.

(* ================================================================== *)
(** * Strings *)
(* ================================================================== *)

Lemma split_not_nil (sep : ascii) (s : string) : Js.split sep s <> [].
Proof.
  destruct s as [|c s]; simpl; [discriminate|].
  destruct (Ascii.eqb c sep); [discriminate|].
  destruct (Js.split sep s); discriminate.
Qed.

(** A string without the separator is the only piece of its split. *)
Lemma split_without_sep (sep : ascii) (s : string) :
  Js.occurs sep s = false -> Js.split sep s = [s].
Proof.
  induction s as [|c s IH]; simpl; intros H; [reflexivity|].
  apply orb_false_iff in H as [Hc Hs].
  rewrite Hc, (IH Hs). reflexivity.
Qed.

(** A string with the separator splits in two pieces at least. *)
Lemma split_with_sep (sep : ascii) (s : string) :
  Js.occurs sep s = true ->
  exists p q rest, Js.split sep s = p :: q :: rest.
Proof.
  induction s as [|c s IH]; simpl; intros H; [discriminate|].
  destruct (Ascii.eqb c sep) eqn:Hc.
  - destruct (Js.split sep s) as [|q rest] eqn:E.
    + exfalso. exact (split_not_nil sep s E).
    + exists EmptyString, q, rest. reflexivity.
  - simpl in H. destruct (IH H) as (p & q & rest & E).
    rewrite E. exists (String c p), q, rest. reflexivity.
Qed.

(** In an address with a single ['@'] the second piece of the split is the
    substring after the ['@']. *)
Lemma split_single_at (local rest : string) :
  Js.occurs "@"%char local = false ->
  Js.occurs "@"%char rest = false ->
  Js.split "@"%char (local ++ String "@"%char rest) = [local; rest].
Proof.
  intros Hl Hr. induction local as [|c local IH]; simpl.
  - now rewrite (split_without_sep _ _ Hr).
  - simpl in Hl. apply orb_false_iff in Hl as [Hc Hl].
    now rewrite Hc, (IH Hl).
Qed.




Lemma string_append_assoc (a b c : string) :
  ((a ++ b) ++ c = a ++ (b ++ c))%string.
Proof.
  induction a as [|x a IH]; simpl; [reflexivity|now rewrite IH].
Qed.

Lemma prefix_append (sub s : string) :
  String.prefix sub s = true <-> exists b, s = sub ++ b.
Proof.
  revert s. induction sub as [|c sub IH]; intros s.
  - simpl. split; [intros _; exists s; reflexivity|].
    intros _. destruct s; reflexivity.
  - destruct s as [|c' s]; simpl.
    + split; [discriminate|]. intros [b Hb]. discriminate.
    + destruct (Ascii.ascii_dec c c') as [->|Hne].
      * rewrite IH. split; intros [b Hb]; exists b.
        -- now rewrite Hb.
        -- now injection Hb.
      * split; [discriminate|]. intros [b Hb]. injection Hb as Hc _.
        now elim Hne.
Qed.

(** [includes] is substring containment. *)
Lemma includes_substring (s sub : string) :
  Js.includes s sub = true <-> exists a b, s = a ++ sub ++ b.
Proof.
  induction s as [|c s IH].
  - cbn [Js.includes]. rewrite orb_false_r, prefix_append. split.
    + intros [b Hb]. exists EmptyString, b. exact Hb.
    + intros (a & b & H). destruct a; simpl in H; [now exists b|discriminate].
  - cbn [Js.includes]. rewrite orb_true_iff, prefix_append, IH. split.
    + intros [[b Hb]|(a & b & H)].
      * exists EmptyString, b. exact Hb.
      * exists (String c a), b. simpl. now rewrite H.
    + intros (a & b & H). destruct a as [|c' a]; simpl in H.
      * left. now exists b.
      * right. injection H as _ H. now exists a, b.
Qed.

(* ================================================================== *)
(** * Provider resolution *)
(* ================================================================== *)

Open Scope list_scope.

Section ProviderResolution.

Variable toLowerCase : string -> string.

Lemma domainOf_without_at (email : string) :
  Js.occurs "@"%char email = false ->
  EmailProviders.domainOf toLowerCase email =
  Js.Throw (Js.TypeError
              "Cannot read properties of undefined (reading 'toLowerCase')").
Proof.
  intros H. unfold EmailProviders.domainOf.
  rewrite (split_without_sep _ _ H). reflexivity.
Qed.

Lemma domainOf_with_at (email : string) :
  Js.occurs "@"%char email = true ->
  exists piece,
    nth_error (Js.split "@"%char email) 1 = Some piece /\
    EmailProviders.domainOf toLowerCase email = Js.Normal (toLowerCase piece).
Proof.
  intros H. destruct (split_with_sep _ _ H) as (p & q & rest & E).
  exists q. unfold EmailProviders.domainOf. rewrite E. split; reflexivity.
Qed.

(** With an ['@'] in the address the resolver returns normally. *)
Lemma getProviderSettings_with_at_returns
    (providers : list (string * Config.Provider)) (email : string) :
  Js.occurs "@"%char email = true ->
  exists r,
    EmailProviders.getProviderSettings toLowerCase providers email = Js.Normal r.
Proof.
  intros H. destruct (domainOf_with_at email H) as (piece & _ & E).
  unfold EmailProviders.getProviderSettings. rewrite E.
  destruct (find _ _) as [key|]; [|eexists; reflexivity].
  destruct (negb _); eexists; reflexivity.
Qed.

Section Table.

Variable providers : list (string * Config.Provider).
Hypothesis keys_distinct : NoDup (map fst providers).




End Table.

End ProviderResolution.


Lemma hostMatches_substring (domain : string) (p : Config.Provider) :
  EmailProviders.hostMatches domain p = true <->
  exists e a c,
    (Config.imap p = Some e \/ Config.pop3 p = Some e) /\
    Config.host e = (a ++ domain ++ c)%string.
Proof.
  unfold EmailProviders.hostMatches. rewrite orb_true_iff. split.
  - intros [H|H].
    + destruct (Config.imap p) as [e|]; [|discriminate].
      apply includes_substring in H as (a & c & H). exists e, a, c. auto.
    + destruct (Config.pop3 p) as [e|]; [|discriminate].
      apply includes_substring in H as (a & c & H). exists e, a, c. auto.
  - intros (e & a & c & [E|E] & H); rewrite E; [left|right];
      apply includes_substring; now exists a, c.
Qed.




(** C3, as the code has it: for every string without an ['@'],
    [getProviderSettings] fails the same way whatever the provider table:
    it throws the [TypeError] of calling [toLowerCase] on the missing second
    piece of [email.split('@')]; no structured failure is produced. *)
Theorem getProviderSettings_without_at_throws :
  forall (toLowerCase : string -> string)
         (providers : list (string * Config.Provider)) (email : string),
    Js.occurs "@"%char email = false ->
    EmailProviders.getProviderSettings toLowerCase providers email =
    Js.Throw (Js.TypeError
                "Cannot read properties of undefined (reading 'toLowerCase')").
Proof.
  intros toLowerCase providers email H.
  unfold EmailProviders.getProviderSettings.
  now rewrite (domainOf_without_at toLowerCase email H).
Qed.

Lemma getProviderSettings_without_at_throws_witness :
  Js.occurs "@"%char "postmaster" = false /\
  EmailProviders.getProviderSettings Sample.toLowerCase Config.PROVIDERS
    "postmaster" =
  Js.Throw (Js.TypeError
              "Cannot read properties of undefined (reading 'toLowerCase')").
Proof.
  split; [reflexivity|].
  apply (getProviderSettings_without_at_throws
           Sample.toLowerCase Config.PROVIDERS "postmaster").
  reflexivity.
Defined.

(** C3, as the claim has it, fails: on the address ["nodomain"], which has
    no ['@'], the resolver does not return a result (there is no [r] it
    returns normally); it throws a [TypeError]. *)
Lemma getProviderSettings_nodomain_not_structured :
  Js.occurs "@"%char "nodomain" = false /\
  ~ (exists r,
       EmailProviders.getProviderSettings Sample.toLowerCase Config.PROVIDERS
         "nodomain" = Js.Normal r).
Proof.
  split; [reflexivity|].
  intros [r H]. vm_compute in H. discriminate H.
Qed.

(** [domain] is a substring of the IMAP host or of the POP3 host of the
    provider. *)
Definition hostContains (domain : string) (p : Config.Provider) : Prop :=
  exists e a c,
    (Config.imap p = Some e \/ Config.pop3 p = Some e) /\
    Config.host e = (a ++ domain ++ c)%string.

Lemma hostMatches_contains (domain : string) (p : Config.Provider) :
  EmailProviders.hostMatches domain p = true <-> hostContains domain p.
Proof.
  exact (hostMatches_substring domain p).
Qed.

Lemma hostMatches_not_contains (domain : string) (p : Config.Provider) :
  EmailProviders.hostMatches domain p = false <-> ~ hostContains domain p.
Proof.
  rewrite <- hostMatches_contains.
  destruct (EmailProviders.hostMatches domain p); split; congruence.
Qed.




(* ================================================================== *)
(** * The SMTP transport *)
(* ================================================================== *)

Lemma smtp_step_commands (st : Smtp.State) (ev : Smtp.Event) :
  Smtp.commands (Smtp.step st ev) = Smtp.commands st.
Proof.
  destruct ev. unfold Smtp.step. now destruct (Smtp.callbackPending st).
Qed.

Lemma smtp_run_commands (events : list Smtp.Event) (st : Smtp.State) :
  Smtp.commands (fold_left Smtp.step events st) = Smtp.commands st.
Proof.
  revert st. induction events as [|ev events IH]; intros st; simpl.
  - reflexivity.
  - now rewrite IH, smtp_step_commands.
Qed.

(** C10: the transport of [testSmtpConnection] and of [sendEmail] is
    created with [secure] true exactly when the port is the number 465; the
    options are the only transport either adapter creates, whatever the
    server answers; the flag depends on the port alone, so for an endpoint
    of the provider table it is [false] whatever the endpoint's own [secure]
    flag says, the table's SMTP ports being 587. *)
Theorem smtp_secure_iff_port_465 :
  forall (production : bool) (user pass : string)
         (smtpHost smtpPort : Js.Value),
    (Smtp.secure (Smtp.transportOptions production user pass smtpHost smtpPort)
     = true <-> smtpPort = Js.Number 465) /\
    (forall events,
        Smtp.commands
          (Smtp.testSmtpConnection production user pass smtpHost smtpPort
             events) =
        [Smtp.CreateTransport
           (Smtp.transportOptions production user pass smtpHost smtpPort);
         Smtp.Verify]) /\
    (forall to subject text events,
        exists mail,
          Smtp.commands
            (Smtp.sendEmail production user pass smtpHost smtpPort
               to subject text events) =
          [Smtp.CreateTransport
             (Smtp.transportOptions production user pass smtpHost smtpPort);
           Smtp.SendMail mail]) /\
    (forall key p e flag,
        In (key, p) Config.PROVIDERS ->
        Config.smtp p = Some e ->
        let e' := {| Config.host := Config.host e; Config.port := Config.port e;
                     Config.secure := flag |} in
        Smtp.secure
          (Smtp.transportOptions production user pass
             (Server.hostOf e') (Server.portOf e')) = false).
Proof.
  intros production user pass smtpHost smtpPort. repeat split.
  - unfold Smtp.transportOptions, Js.strictEqNum. simpl.
    destruct smtpPort; try discriminate.
    intros H. apply Z.eqb_eq in H. now subst.
  - intros ->. reflexivity.
  - intros events. unfold Smtp.testSmtpConnection.
    now rewrite smtp_run_commands.
  - intros to subject text events. unfold Smtp.sendEmail.
    rewrite smtp_run_commands. eexists. reflexivity.
  - intros key p e flag HIn He. simpl in HIn.
    repeat (destruct HIn as [HIn|HIn];
            [injection HIn as <- <-; simpl in He;
             first [discriminate He | injection He as <-; reflexivity]|]).
    contradiction.
Qed.

Lemma smtp_secure_iff_port_465_witness :
  Smtp.secure
    (Smtp.transportOptions true "anna@gmail.com" "secret"
       (Js.Str "smtp.gmail.com") (Js.Number 587)) = false /\
  Smtp.secure
    (Smtp.transportOptions true "anna@example.org" "secret"
       (Js.Str "mail.example.org") (Js.Number 465)) = true.
Proof.
  split.
  - exact (proj2 (proj2 (proj2
             (smtp_secure_iff_port_465 true "anna@gmail.com" "secret"
                (Js.Str "smtp.gmail.com") (Js.Number 587))))
             "gmail" Config.gmail
             {| Config.host := "smtp.gmail.com"; Config.port := 587;
                Config.secure := false |}
             true (or_introl eq_refl) eq_refl).
  - apply (proj1 (smtp_secure_iff_port_465 true "anna@example.org" "secret"
                    (Js.Str "mail.example.org") (Js.Number 465))).
    reflexivity.
Defined.

(* ================================================================== *)
(** * The folder tree flattener *)
(* ================================================================== *)

Lemma preorderPaths_not_nil (boxes : Folders.Boxes) :
  forall path, In path (Folders.preorderPaths boxes) -> path <> [].
Proof.
  revert boxes.
  fix IH 1. intros [|name delimiter children rest] path; simpl.
  - intros [].
  - intros [<-|H]; [discriminate|].
    apply in_app_or in H as [H|H].
    + destruct children as [inner|]; [|contradiction].
      apply in_map_iff in H as (p & <- & _). discriminate.
    + exact (IH rest path H).
Qed.

(** The names the flattener emits are the qualified names of the nodes in
    preorder. *)
Lemma extractFolderNames_preorder (boxes : Folders.Boxes) :
  forall prefix,
    map Folders.name (Folders.extractFolderNames boxes prefix) =
    map (Folders.qualifiedName prefix) (Folders.preorderPaths boxes).
Proof.
  revert boxes.
  fix IH 1. intros [|name delimiter children rest] prefix; simpl.
  - reflexivity.
  - f_equal. rewrite !map_app. f_equal; [|apply IH].
    destruct children as [inner|]; [|reflexivity].
    rewrite IH, map_map.
    apply map_ext_in. intros path Hpath.
    pose proof (preorderPaths_not_nil inner path Hpath) as Hne.
    destruct path as [|step below]; [now elim Hne|reflexivity].
Qed.

(** C8, as the code has it: the flattener emits, for each entry in order,
    the node named [prefix ++ name], then the flattened children under the
    prefix [prefix ++ name ++ delimiter], then the remaining entries; its
    names are those of the nodes in preorder (parents first), each spelled
    along the path from the root; for the tree [A{B,C{D}}] with delimiter
    [d] the names come out as [A, A d B, A d C, A d C d D]: every name
    carries the names of all its ancestors. *)
Theorem extractFolderNames_depth_first :
  (forall prefix, Folders.extractFolderNames Folders.Empty prefix = []) /\
  (forall boxes prefix,
      map Folders.name (Folders.extractFolderNames boxes prefix) =
      map (Folders.qualifiedName prefix) (Folders.preorderPaths boxes)) /\
  (forall name delimiter children rest prefix,
      Folders.extractFolderNames
        (Folders.Entry name delimiter children rest) prefix =
      {| Folders.name := (prefix ++ name)%string;
         Folders.delimiter := delimiter;
         Folders.children := children |}
      :: match children with
         | Some inner =>
             Folders.extractFolderNames inner
               ((prefix ++ name) ++ delimiter)%string
         | None => []
         end
      ++ Folders.extractFolderNames rest prefix) /\
  (forall d,
      map Folders.name (Folders.extractFolderNames (Sample.tree d) "") =
      ["A"; "A" ++ d ++ "B"; "A" ++ d ++ "C";
       "A" ++ d ++ "C" ++ d ++ "D"]%string).
Proof.
  split; [reflexivity|]. split; [exact extractFolderNames_preorder|].
  split; [reflexivity|].
  intros d. simpl. rewrite !string_append_assoc. reflexivity.
Qed.

(** C8, as the claim has it, fails: for the tree [A{B,C{D}}] with
    delimiter ["/"] the names are not [A, B, C, C/D]; the second one is
    ["A/B"]. *)
Lemma extractFolderNames_tree_names_qualified :
  map Folders.name (Folders.extractFolderNames (Sample.tree "/") "") <>
  ["A"; "B"; "C"; "C/D"]%string /\
  map Folders.name (Folders.extractFolderNames (Sample.tree "/") "") =
  ["A"; "A/B"; "A/C"; "A/C/D"]%string.
Proof.
  split; [discriminate|reflexivity].
Qed.

(* ================================================================== *)
(** * The request handlers *)
(* ================================================================== *)

Section HandlerFacts.

Variable toLowerCase : string -> string.
Variable isEmail : string -> bool.
Variable isInt : Z -> bool.
Variable production : bool.
Variable net : Server.Network.

Lemma validationErrors_passed (checks : list (bool * string)) :
  forallb fst checks = true -> Server.validationErrors checks = [].
Proof.
  induction checks as [|[ok msg] checks IH]; simpl; [reflexivity|].
  intros H. apply andb_true_iff in H as [-> H]. simpl. now apply IH.
Qed.

Lemma validationErrors_failed (checks : list (bool * string)) :
  forallb fst checks = false -> Server.validationErrors checks <> [].
Proof.
  induction checks as [|[ok msg] checks IH]; simpl; [discriminate|].
  destruct ok; simpl; [exact IH|discriminate].
Qed.

Lemma forallb_checks {A} (test : A -> bool) (message : string) (l : list A) :
  forallb fst (map (fun x => (test x, message)) l) = forallb test l.
Proof.
  induction l as [|x l IH]; simpl; [reflexivity|now rewrite IH].
Qed.




(** The handlers of [/api/test-connection], [/api/send-email] and
    [/api/mark-read] answer an address the validator rejects with a 400 and
    never hand it to [getProviderSettings]: no adapter is called and no
    exception escapes. *)
Lemma handlers_validate_before_resolving (b : Server.Body) :
  isEmail (Server.email b) = false ->
  (exists errors,
      Server.postTestConnection toLowerCase isEmail production net b =
      {| Server.outcome := Server.Sent (Server.BadRequest errors);
         Server.calls := [] |}) /\
  (exists errors,
      Server.postSendEmail toLowerCase isEmail production net b =
      {| Server.outcome := Server.Sent (Server.BadRequest errors);
         Server.calls := [] |}) /\
  (exists errors,
      Server.postMarkRead toLowerCase isEmail isInt net b =
      {| Server.outcome := Server.Sent (Server.BadRequest errors);
         Server.calls := [] |}).
Proof.
  intros H.
  unfold Server.postTestConnection, Server.postSendEmail, Server.postMarkRead,
    Server.validationErrors.
  cbn [filter fst snd map negb app]. rewrite H. cbn [negb map snd].
  repeat split; eexists; reflexivity.
Qed.

(** [/api/mark-read] answers a [messageIds] that is not an array, or that
    holds an element [isInt] rejects, with a 400: [markAsRead] is not
    called. *)
Lemma markRead_validates_messageIds (b : Server.Body) :
  Server.isArray (Server.messageIds b) = false \/
  forallb isInt (Server.elements (Server.messageIds b)) = false ->
  exists error errors,
    Server.postMarkRead toLowerCase isEmail isInt net b =
    {| Server.outcome := Server.Sent (Server.BadRequest (error :: errors));
       Server.calls := [] |}.
Proof.
  intros H. unfold Server.postMarkRead.
  destruct (Server.validationErrors _) as [|error errors] eqn:E.
  - exfalso. revert E. apply validationErrors_failed.
    simpl. destruct H as [H | H].
    + rewrite H. simpl. now rewrite !andb_false_r.
    + rewrite forallb_checks, H. now rewrite !andb_false_r.
  - now exists error, errors.
Qed.

(** What [postMarkRead] does once validation has passed and the IMAP host
    [ih] and port [ip] are computed: a falsy host is answered with the IMAP
    settings message and no adapter call, and a truthy host leads to exactly
    one [markAsRead] call on that IMAP server, whose result is the answer. *)
Lemma markRead_after_validation (b : Server.Body) (ids : list Z)
    (ih ip : Js.Value) :
  isEmail (Server.email b) = true ->
  Server.notEmpty (Server.password b) = true ->
  Server.messageIds b = Server.Ids ids ->
  forallb isInt ids = true ->
  Server.bind (Server.getProviderSettings toLowerCase (Server.email b))
    (fun providerSettings =>
       Server.bind
         (Server.final providerSettings Config.imap Server.hostOf
            (Server.imapHost b))
         (fun h =>
            Server.bind
              (Server.final providerSettings Config.imap Server.portOf
                 (Server.imapPort b))
              (fun p => Js.Normal (h, p))))
  = Js.Normal (ih, ip) ->
  let handled := Server.postMarkRead toLowerCase isEmail isInt net b in
  let target := {| Server.user := Server.email b;
                   Server.pass := Server.password b;
                   Server.host := ih; Server.port := ip |} in
  (Js.truthy ih = false ->
   handled = {| Server.outcome :=
                  Server.Sent (Server.failure Server.imapUnresolved);
                Server.calls := [] |}) /\
  (Js.truthy ih = true ->
   Server.calls handled = [Server.MarkAsRead target ids] /\
   (forall v,
       Imap.settled (Imap.markAsRead ids (Server.onMarkAsRead net target))
       = Some (Js.Resolved v) ->
       Server.outcome handled =
       Server.Sent
         (Server.Json [("success", Js.Bool true);
                       ("message", Js.Str "Messages marked as read")])) /\
   (forall m,
       Imap.settled (Imap.markAsRead ids (Server.onMarkAsRead net target))
       = Some (Js.Rejected m) ->
       Server.outcome handled = Server.Sent (Server.failure m))).
Proof.
  intros Hemail Hpass Hids Hint Hs handled target.
  subst handled. unfold Server.postMarkRead.
  rewrite validationErrors_passed.
  2:{ rewrite Hids. simpl. rewrite Hemail, Hpass, forallb_checks. exact Hint. }
  rewrite Hs, Hids. simpl. split.
  - intros ->. reflexivity.
  - intros ->. simpl. fold target. repeat split.
    + intros v ->. reflexivity.
    + intros m ->. reflexivity.
Qed.

End HandlerFacts.




(** C2: the handler of [/api/mark-read] has no protocol guard.  It gives
    the same result whatever [fetchProtocol] the request carries, and the
    POP3-configured request of a Gmail account to mark the messages 7 and 8
    is not rejected: [markAsRead] is called on Gmail's IMAP server, and the
    answer is that server's, success when it accepts and its connection
    error when it refuses. *)
Theorem markRead_pop3_request_reaches_imap :
  let request :=
    Sample.marking [7; 8]
      (Sample.account "anna@gmail.com" "secret" (Js.Str "pop3")) in
  let call :=
    Server.MarkAsRead
      {| Server.user := "anna@gmail.com"; Server.pass := "secret";
         Server.host := Js.Str "imap.gmail.com";
         Server.port := Js.Number 993 |} [7; 8] in
  (forall (toLowerCase : string -> string) (isEmail : string -> bool)
          (isInt : Z -> bool) (net : Server.Network) (b : Server.Body)
          (v : Js.Value),
      Server.postMarkRead toLowerCase isEmail isInt net
        (Server.withProtocol v b) =
      Server.postMarkRead toLowerCase isEmail isInt net b) /\
  Server.fetchProtocol request = Js.Str "pop3" /\
  Server.postMarkRead Sample.toLowerCase Sample.isEmail Sample.isInt
    Sample.friendly request =
  {| Server.outcome :=
       Server.Sent
         (Server.Json [("success", Js.Bool true);
                       ("message", Js.Str "Messages marked as read")]);
     Server.calls := [call] |} /\
  Server.postMarkRead Sample.toLowerCase Sample.isEmail Sample.isInt
    Sample.smtpOnly request =
  {| Server.outcome :=
       Server.Sent
         (Server.Json [("success", Js.Bool false);
                       ("error", Js.Str "connect ECONNREFUSED")]);
     Server.calls := [call] |}.
Proof.
  intros request call.
  split; [reflexivity|]. split; [reflexivity|].
  split; vm_compute; reflexivity.
Qed.

(** A [messageIds] holding [1e21], which [isInt] rejects, is answered with
    a 400. *)
Lemma markRead_rejects_exponent_id :
  Server.postMarkRead Sample.toLowerCase Sample.isEmail Sample.isInt
    Sample.friendly
    (Sample.marking [7; 10 ^ 21]
       (Sample.account "anna@gmail.com" "secret" (Js.Str "imap"))) =
  {| Server.outcome :=
       Server.Sent (Server.BadRequest ["messageIds должны быть числами"%string]);
     Server.calls := [] |}.
Proof.
  vm_compute. reflexivity.
Qed.

(* ================================================================== *)
(** * The POP3 fetch *)
(* ================================================================== *)

Lemma pop3_mem_removeOne (i : Z) (l : list Z) :
  Pop3.mem i l = true ->
  S (length (Pop3.removeOne i l)) = length l.
Proof.
  unfold Pop3.mem.
  induction l as [|j l IH]; simpl; [discriminate|].
  destruct (i =? j); simpl; [reflexivity|].
  intros H. now rewrite (IH H).
Qed.

Lemma pop3_indices_length (n : Z) :
  Z.of_nat (length (Pop3.indices n)) = Z.max 0 n.
Proof.
  unfold Pop3.indices. rewrite length_map, length_seq. lia.
Qed.

Lemma pop3_calls_fields {A B} (f : B -> Pop3.Command) (l : list B)
    (st : Pop3.State A) :
  let st' := fold_left (fun s i => Pop3.call (f i) s) l st in
  Pop3.settled st' = Pop3.settled st /\
  Pop3.commands st' = Pop3.commands st ++ map f l /\
  Pop3.emails st' = Pop3.emails st /\
  Pop3.fetchCount st' = Pop3.fetchCount st /\
  Pop3.fetched st' = Pop3.fetched st /\
  Pop3.connected st' = Pop3.connected st /\
  Pop3.loginPending st' = Pop3.loginPending st /\
  Pop3.statPending st' = Pop3.statPending st /\
  Pop3.retrPending st' = Pop3.retrPending st /\
  Pop3.parsePending st' = Pop3.parsePending st.
Proof.
  revert st. induction l as [|i l IH]; intros st; simpl.
  - rewrite app_nil_r. repeat split.
  - destruct (IH (Pop3.call (f i) st))
      as (H1 & H2 & H3 & H4 & H5 & H6 & H7 & H8 & H9 & H10).
    simpl in *. rewrite <- app_assoc in H2. repeat split; assumption.
Qed.

Section Pop3Facts.

Variable toLocaleString : Z -> string.
Variables (email password : string) (count : Z).

Definition notResolved {A} (p : Js.Promise A) : Prop :=
  forall a, p <> Some (Js.Resolved a).

(** The counters of a fetch: every message pushed was counted, the counted
    and the outstanding messages together never exceed the number asked
    for, and a resolved fetch has nothing outstanding. *)
Definition pop3Counted (st : Pop3.State (list Pop3.Email)) : Prop :=
  Z.of_nat (length (Pop3.emails st)) <= Pop3.fetched st /\
  Pop3.fetched st + Z.of_nat (length (Pop3.retrPending st))
    + Z.of_nat (length (Pop3.parsePending st)) <= Z.max 0 (Pop3.fetchCount st) /\
  (forall l, Pop3.settled st = Some (Js.Resolved l) ->
             Z.of_nat (length l) <= Z.max 0 (Pop3.fetchCount st) /\
             Pop3.retrPending st = [] /\ Pop3.parsePending st = []).

(** Before the callback of [stat] has run. *)
Definition pop3BeforeStat (st : Pop3.State (list Pop3.Email)) : Prop :=
  Pop3.retrPending st = [] /\ Pop3.parsePending st = [] /\
  Pop3.emails st = [] /\ Pop3.fetched st = 0 /\ Pop3.fetchCount st = 0 /\
  notResolved (Pop3.settled st) /\
  (Pop3.statPending st = true ->
   Pop3.connected st = true /\ Pop3.loginPending st = false) /\
  (Pop3.loginPending st = true -> Pop3.connected st = true).

(** After it: no listener can start the session again. *)
Definition pop3AfterStat (st : Pop3.State (list Pop3.Email)) : Prop :=
  Pop3.connected st = true /\ Pop3.loginPending st = false /\
  Pop3.statPending st = false.

Definition pop3Inv (st : Pop3.State (list Pop3.Email)) : Prop :=
  pop3Counted st /\ (pop3AfterStat st \/ pop3BeforeStat st).

Lemma settle_resolved {A} (p : Js.Promise A) (s : Js.Settled A) (a : A) :
  Js.settle p s = Some (Js.Resolved a) ->
  p = Some (Js.Resolved a) \/ (p = None /\ s = Js.Resolved a).
Proof.
  destruct p; simpl; intros H; [now left|right]. split; congruence.
Qed.

Lemma settle_rejected_resolved {A} (p : Js.Promise A) (m : string) (a : A) :
  Js.settle p (Js.Rejected m) = Some (Js.Resolved a) ->
  p = Some (Js.Resolved a).
Proof.
  intros H. apply settle_resolved in H as [H|[_ H]]; [exact H|discriminate].
Qed.

Lemma notResolved_settle_rejected {A} (p : Js.Promise A) (m : string) :
  notResolved p -> notResolved (Js.settle p (Js.Rejected m)).
Proof.
  intros H a E. apply settle_rejected_resolved in E. exact (H a E).
Qed.

Ltac pop3_flags :=
  repeat split; simpl in *;
  try assumption; try lia; try discriminate;
  try (apply notResolved_settle_rejected; assumption);
  try (intuition congruence).

Lemma pop3Inv_start : pop3Inv (Pop3.start (list Pop3.Email)).
Proof.
  split.
  - unfold pop3Counted. simpl. refine (conj _ (conj _ _)); try lia.
    intros l H. discriminate H.
  - right. unfold pop3BeforeStat, notResolved. simpl.
    repeat split; discriminate.
Qed.

Local Notation "'step'" :=
  (Pop3.fetchPop3Emails_step toLocaleString email password count).

Lemma pop3Inv_step st ev : pop3Inv st -> pop3Inv (step st ev).
Proof.
  intros Hsame. pose proof Hsame as [(He & Hp & Hr) Hphase].
  destruct ev as [m| |err|err n|i err|i r]; cbn [Pop3.fetchPop3Emails_step].
  - (* error *)
    split.
    + unfold pop3Counted. simpl. refine (conj He (conj Hp _)).
      intros l H. apply settle_rejected_resolved in H. auto.
    + destruct Hphase as [Ha|Hb]; [left; exact Ha|right].
      destruct Hb as (H1 & H2 & H3 & H4 & H5 & H6 & H7 & H8).
      unfold pop3BeforeStat. pop3_flags.
  - (* connect *)
    destruct (Pop3.connected st) eqn:Hcon; [exact Hsame|].
    destruct Hphase as [(Ha & _)|Hb]; [congruence|].
    destruct Hb as (H1 & H2 & H3 & H4 & H5 & H6 & H7 & H8).
    split; [exact (conj He (conj Hp Hr))|right].
    unfold pop3BeforeStat. pop3_flags.
  - (* login *)
    destruct (Pop3.loginPending st) eqn:Hlog; [|exact Hsame].
    destruct Hphase as [(_ & Ha & _)|Hb]; [congruence|].
    destruct Hb as (H1 & H2 & H3 & H4 & H5 & H6 & H7 & H8).
    destruct err as [m|]; simpl.
    + split.
      * unfold pop3Counted. simpl. refine (conj He (conj Hp _)).
        intros l H. apply settle_rejected_resolved in H. auto.
      * right. unfold pop3BeforeStat. pop3_flags.
    + split; [exact (conj He (conj Hp Hr))|right].
      unfold pop3BeforeStat. pop3_flags.
  - (* stat *)
    destruct (Pop3.statPending st) eqn:Hstat; [|exact Hsame].
    destruct Hphase as [(_ & _ & Ha)|Hb]; [congruence|].
    destruct Hb as (H1 & H2 & H3 & H4 & H5 & H6 & H7 & H8).
    destruct (H7 Hstat) as [Hcon Hlog].
    destruct err as [m|]; simpl.
    + split.
      * unfold pop3Counted. simpl. refine (conj He (conj Hp _)).
        intros l H. apply settle_rejected_resolved in H. auto.
      * left. unfold pop3AfterStat. simpl. auto.
    + unfold Pop3.onStat. destruct (Z.min n count =? 0) eqn:Hn.
      * split.
        -- unfold pop3Counted. simpl. refine (conj He (conj Hp _)).
           intros l H. apply settle_resolved in H as [H|[_ H]]; [auto|].
           injection H as <-. simpl. repeat split; [lia|assumption..].
        -- left. unfold pop3AfterStat. simpl. auto.
      * match goal with
        | |- context [fold_left ?f ?cs ?s] =>
            destruct (pop3_calls_fields Pop3.Retr cs s)
              as (F1 & F2 & F3 & Fc & Ff & F4 & F5 & F6 & F7 & F8)
        end.
        simpl in F1, F2, F3, Fc, Ff, F4, F5, F6, F7, F8.
        split.
        -- unfold pop3Counted. simpl.
           rewrite F1, F3, Fc, Ff, F7, F8, H1, H2, H3.
           simpl. rewrite pop3_indices_length.
           refine (conj _ (conj _ _)); try lia.
           intros l H. exfalso. exact (H6 l H).
        -- left. unfold pop3AfterStat. simpl. rewrite F4, F5. auto.
  - (* retr *)
    destruct (Pop3.mem i (Pop3.retrPending st)) eqn:Hmem; [|exact Hsame].
    destruct Hphase as [Ha|Hb].
    2:{ destruct Hb as (H1 & _). rewrite H1 in Hmem. discriminate. }
    pose proof (pop3_mem_removeOne _ _ Hmem) as Hlen.
    assert (Hnot : notResolved (Pop3.settled st)).
    { intros l H. destruct (Hr l H) as (_ & E & _).
      rewrite E in Hmem. discriminate. }
    unfold Pop3.onRetr. destruct err as [m|]; simpl.
    + split; [|left; exact Ha].
      unfold pop3Counted. simpl. refine (conj _ (conj _ _)); try lia.
      intros l H. elim (Hnot l H).
    + split; [|left; exact Ha].
      unfold pop3Counted. simpl. rewrite length_app. simpl.
      refine (conj _ (conj _ _)); try lia.
      intros l H. elim (Hnot l H).
  - (* parser *)
    destruct (Pop3.mem i (Pop3.parsePending st)) eqn:Hmem; [|exact Hsame].
    destruct Hphase as [Ha|Hb].
    2:{ destruct Hb as (_ & H2 & _). rewrite H2 in Hmem. discriminate. }
    pose proof (pop3_mem_removeOne _ _ Hmem) as Hlen.
    assert (Hnot : notResolved (Pop3.settled st)).
    { intros l H. destruct (Hr l H) as (_ & _ & E).
      rewrite E in Hmem. discriminate. }
    unfold Pop3.onParsed. destruct r as [m|parsed]; simpl.
    + split; [|left; exact Ha].
      unfold pop3Counted. simpl. refine (conj _ (conj _ _)); try lia.
      intros l H. elim (Hnot l H).
    + destruct (Pop3.fetched st + 1 =? Pop3.fetchCount st) eqn:Hdone; simpl.
      * apply Z.eqb_eq in Hdone.
        split; [|left; exact Ha].
        unfold pop3Counted. simpl. rewrite length_app. simpl.
        refine (conj _ (conj _ _)); try lia.
        intros l H. apply settle_resolved in H as [H|[_ H]]; [elim (Hnot l H)|].
        injection H as <-. rewrite length_app. simpl.
        repeat split; [lia| |].
        -- destruct (Pop3.retrPending st); [reflexivity|simpl in *; lia].
        -- destruct (Pop3.removeOne i (Pop3.parsePending st));
             [reflexivity|simpl in *; lia].
      * split; [|left; exact Ha].
        unfold pop3Counted. simpl. rewrite length_app. simpl.
        refine (conj _ (conj _ _)); try lia.
        intros l H. elim (Hnot l H).
Qed.

Lemma pop3Inv_run events st :
  pop3Inv st -> pop3Inv (fold_left step events st).
Proof.
  revert st. induction events as [|ev events IH]; intros st H; simpl.
  - exact H.
  - apply IH, pop3Inv_step, H.
Qed.

(** A fetch that can no longer resolve: past [stat], unresolved, and with
    fewer messages counted or outstanding than asked for. *)
Definition pop3Starved (st : Pop3.State (list Pop3.Email)) : Prop :=
  pop3AfterStat st /\ notResolved (Pop3.settled st) /\
  Pop3.fetched st + Z.of_nat (length (Pop3.retrPending st))
    + Z.of_nat (length (Pop3.parsePending st)) < Pop3.fetchCount st.

Lemma pop3Starved_step st ev : pop3Starved st -> pop3Starved (step st ev).
Proof.
  intros Hsame. pose proof Hsame as ((Hc & Hl & Hs) & Hn & Hlt).
  destruct ev as [m| |err|err n|i err|i r]; cbn [Pop3.fetchPop3Emails_step].
  - split; [exact (conj Hc (conj Hl Hs))|]. split; [|exact Hlt].
    simpl. now apply notResolved_settle_rejected.
  - now rewrite Hc.
  - now rewrite Hl.
  - now rewrite Hs.
  - destruct (Pop3.mem i (Pop3.retrPending st)) eqn:Hmem; [|exact Hsame].
    pose proof (pop3_mem_removeOne _ _ Hmem) as Hlen.
    unfold Pop3.onRetr. destruct err as [m|]; simpl.
    + split; [exact (conj Hc (conj Hl Hs))|]. split; [exact Hn|]. simpl. lia.
    + split; [exact (conj Hc (conj Hl Hs))|]. split; [exact Hn|].
      simpl. rewrite length_app. simpl. lia.
  - destruct (Pop3.mem i (Pop3.parsePending st)) eqn:Hmem; [|exact Hsame].
    pose proof (pop3_mem_removeOne _ _ Hmem) as Hlen.
    unfold Pop3.onParsed. destruct r as [m|parsed]; simpl.
    + split; [exact (conj Hc (conj Hl Hs))|]. split; [exact Hn|]. simpl. lia.
    + destruct (Pop3.fetched st + 1 =? Pop3.fetchCount st) eqn:Hdone; simpl.
      * apply Z.eqb_eq in Hdone. lia.
      * split; [exact (conj Hc (conj Hl Hs))|]. split; [exact Hn|].
        simpl. lia.
Qed.

Lemma pop3Starved_run events st :
  pop3Starved st -> pop3Starved (fold_left step events st).
Proof.
  revert st. induction events as [|ev events IH]; intros st H; simpl.
  - exact H.
  - apply IH, pop3Starved_step, H.
Qed.

(** A fetch with nothing outstanding that has not resolved never will. *)
Definition pop3Drained (st : Pop3.State (list Pop3.Email)) : Prop :=
  pop3AfterStat st /\ notResolved (Pop3.settled st) /\
  Pop3.retrPending st = [] /\ Pop3.parsePending st = [].

Lemma pop3Drained_step st ev : pop3Drained st -> pop3Drained (step st ev).
Proof.
  intros Hsame. pose proof Hsame as ((Hc & Hl & Hs) & Hn & Hr & Hp).
  destruct ev as [m| |err|err n|i err|i r]; cbn [Pop3.fetchPop3Emails_step].
  - split; [exact (conj Hc (conj Hl Hs))|]. split; [|exact (conj Hr Hp)].
    simpl. now apply notResolved_settle_rejected.
  - now rewrite Hc.
  - now rewrite Hl.
  - now rewrite Hs.
  - now rewrite Hr.
  - now rewrite Hp.
Qed.

Lemma pop3Drained_run events st :
  pop3Drained st -> pop3Drained (fold_left step events st).
Proof.
  revert st. induction events as [|ev events IH]; intros st H; simpl.
  - exact H.
  - apply IH, pop3Drained_step, H.
Qed.

Lemma fetchPop3Emails_app (before after : list Pop3.Event) :
  Pop3.fetchPop3Emails toLocaleString email password count (before ++ after) =
  fold_left step after
    (Pop3.fetchPop3Emails toLocaleString email password count before).
Proof.
  unfold Pop3.fetchPop3Emails. apply fold_left_app.
Qed.

(** Once the parser has failed on a message, the fetch never resolves,
    whatever is delivered afterwards. *)
Lemma fetchPop3Emails_parse_failure_starves before i m after :
  Pop3.mem i
    (Pop3.parsePending
       (Pop3.fetchPop3Emails toLocaleString email password count before))
  = true ->
  notResolved
    (Pop3.settled
       (Pop3.fetchPop3Emails toLocaleString email password count
          (before ++ Pop3.ParserDone i (inl m) :: after))).
Proof.
  intros Hmem. rewrite fetchPop3Emails_app. simpl fold_left.
  apply pop3Starved_run.
  assert (Hinv : pop3Inv
            (Pop3.fetchPop3Emails toLocaleString email password count before))
    by (apply pop3Inv_run, pop3Inv_start).
  destruct Hinv as [(He & Hp & Hr) Hphase].
  cbn [Pop3.fetchPop3Emails_step]. rewrite Hmem.
  pose proof (pop3_mem_removeOne _ _ Hmem) as Hlen.
  destruct Hphase as [Ha|Hb].
  2:{ destruct Hb as (_ & H2 & _). rewrite H2 in Hmem. discriminate. }
  split; [exact Ha|]. split; simpl.
  - intros l H. destruct (Hr l H) as (_ & _ & E).
    rewrite E in Hmem. discriminate.
  - lia.
Qed.

(** When the last outstanding retrieval fails, the fetch never resolves
    either. *)
Lemma fetchPop3Emails_last_retr_failure_drains before i m after :
  let st := Pop3.fetchPop3Emails toLocaleString email password count before in
  Pop3.retrPending st = [i] -> Pop3.parsePending st = [] ->
  notResolved
    (Pop3.settled
       (Pop3.fetchPop3Emails toLocaleString email password count
          (before ++ Pop3.RetrDone i (Some m) :: after))).
Proof.
  intros st Hr Hp. rewrite fetchPop3Emails_app. simpl fold_left.
  apply pop3Drained_run. fold st.
  assert (Hinv : pop3Inv st) by (apply pop3Inv_run, pop3Inv_start).
  destruct Hinv as [(_ & _ & Hres) Hphase].
  cbn [Pop3.fetchPop3Emails_step]. rewrite Hr. unfold Pop3.mem. simpl.
  rewrite Z.eqb_refl. simpl.
  destruct Hphase as [Ha|Hb].
  2:{ destruct Hb as (H1 & _). rewrite H1 in Hr. discriminate. }
  split; [exact Ha|]. split; [|split; [reflexivity|exact Hp]]. simpl.
  intros l H. destruct (Hres l H) as (_ & E & _).
  rewrite E in Hr. discriminate.
Qed.

Section Window.

Variable total : Z.

(** The mailbox reports [total] messages. *)
Definition statTotal (ev : Pop3.Event) : Prop :=
  match ev with
  | Pop3.StatDone _ n => n = total
  | _ => True
  end.

Definition noRetr (cs : list Pop3.Command) : Prop :=
  forall i, ~ In (Pop3.Retr i) cs.

Definition pop3Window (st : Pop3.State (list Pop3.Email)) : Prop :=
  (Pop3.fetchCount st = 0 \/ Pop3.fetchCount st = Z.min total count) /\
  (Z.min total count <= 0 -> noRetr (Pop3.commands st)).

Lemma noRetr_call cs c :
  noRetr cs -> (forall i, c <> Pop3.Retr i) -> noRetr (cs ++ [c]).
Proof.
  intros H Hc i HIn. apply in_app_or in HIn as [HIn|[E|[]]].
  - exact (H i HIn).
  - exact (Hc i E).
Qed.

Lemma pop3_indices_nil n : n <= 0 -> Pop3.indices n = [].
Proof.
  intros H. unfold Pop3.indices.
  replace (Z.to_nat n) with O by lia. reflexivity.
Qed.

Lemma pop3Window_step st ev :
  pop3Window st -> statTotal ev -> pop3Window (step st ev).
Proof.
  intros Hsame Hev. pose proof Hsame as [Hc Hno].
  destruct ev as [m| |err|err n|i err|i r]; cbn [Pop3.fetchPop3Emails_step].
  - split; [exact Hc|]. intros Hle. simpl.
    apply noRetr_call; [auto|discriminate].
  - destruct (Pop3.connected st); [exact Hsame|].
    split; [exact Hc|]. intros Hle. simpl.
    apply noRetr_call; [auto|discriminate].
  - destruct (Pop3.loginPending st); [|exact Hsame].
    destruct err as [m|]; (split; [exact Hc|]); intros Hle; simpl;
      (apply noRetr_call; [auto|discriminate]).
  - destruct (Pop3.statPending st); [|exact Hsame].
    simpl in Hev. subst n.
    destruct err as [m|].
    + split; [exact Hc|]. intros Hle. simpl.
      apply noRetr_call; [auto|discriminate].
    + unfold Pop3.onStat. destruct (Z.min total count =? 0) eqn:Hn.
      * split; [exact Hc|]. intros Hle. simpl.
        apply noRetr_call; [auto|discriminate].
      * match goal with
        | |- context [fold_left ?f ?cs ?s] =>
            destruct (pop3_calls_fields Pop3.Retr cs s)
              as (F1 & F2 & F3 & Fc & Ff & F4 & F5 & F6 & F7 & F8)
        end.
        simpl in F1, F2, F3, Fc, Ff, F4, F5, F6, F7, F8.
        split; simpl.
        -- rewrite Fc. now right.
        -- intros Hle. rewrite F2, (pop3_indices_nil _ Hle). simpl.
           rewrite app_nil_r. auto.
  - destruct (Pop3.mem i (Pop3.retrPending st)); [|exact Hsame].
    unfold Pop3.onRetr. destruct err as [m|]; simpl; exact Hsame.
  - destruct (Pop3.mem i (Pop3.parsePending st)); [|exact Hsame].
    unfold Pop3.onParsed. destruct r as [m|parsed]; simpl; [exact Hsame|].
    destruct (Pop3.fetched st + 1 =? Pop3.fetchCount st); simpl;
      [|exact Hsame].
    split; [exact Hc|]. intros Hle.
    apply noRetr_call; [auto|discriminate].
Qed.

Lemma pop3Window_run events st :
  pop3Window st -> Forall statTotal events ->
  pop3Window (fold_left step events st).
Proof.
  revert st. induction events as [|ev events IH]; intros st H Hall; simpl.
  - exact H.
  - inversion Hall; subst. apply IH; [now apply pop3Window_step|assumption].
Qed.

(** The POP3 window: against a mailbox of [total] messages a fetch resolves
    with at most [min(count, total)] messages, and when that minimum is
    zero (or less) it makes no [retr] call and resolves with no message. *)
Lemma fetchPop3Emails_window events :
  Forall statTotal events ->
  let st := Pop3.fetchPop3Emails toLocaleString email password count events in
  (forall l, Pop3.settled st = Some (Js.Resolved l) ->
             Z.of_nat (length l) <= Z.max 0 (Z.min count total)) /\
  (Z.min count total <= 0 -> noRetr (Pop3.commands st)).
Proof.
  intros Hall st.
  assert (Hinv : pop3Inv st) by (apply pop3Inv_run, pop3Inv_start).
  assert (Hwin : pop3Window st).
  { apply pop3Window_run; [|exact Hall]. split; simpl.
    - now left.
    - intros _ i [E|[]]. discriminate E. }
  destruct Hinv as [(_ & _ & Hres) _]. destruct Hwin as [Hc Hno].
  split.
  - intros l H. destruct (Hres l H) as (Hlen & _).
    destruct Hc as [E|E]; rewrite E in Hlen; lia.
  - intros Hle. apply Hno. lia.
Qed.

End Window.

End Pop3Facts.

(* ================================================================== *)
(** * Releasing the connection *)
(* ================================================================== *)

(** [testPop3Connection] calls [quit] before it settles, on every path. *)
Lemma testPop3Connection_settled_quit (email password : string)
    (events : list Pop3.Event) :
  let st := Pop3.testPop3Connection email password events in
  Pop3.settled st <> None -> In Pop3.Quit (Pop3.commands st).
Proof.
  unfold Pop3.testPop3Connection.
  assert (H : forall st : Pop3.State bool,
             (Pop3.settled st <> None -> In Pop3.Quit (Pop3.commands st)) ->
             let st' := fold_left (Pop3.testPop3Connection_step email password)
                          events st in
             Pop3.settled st' <> None -> In Pop3.Quit (Pop3.commands st')).
  { induction events as [|ev events IH]; intros st Hst; simpl; [exact Hst|].
    apply IH. destruct ev as [m| |err| | |]; simpl; try exact Hst.
    - intros _. apply in_or_app. right. now left.
    - destruct (Pop3.connected st); [exact Hst|]. simpl.
      intros H. apply in_or_app. left. now apply Hst.
    - destruct (Pop3.loginPending st); [|exact Hst].
      destruct err; simpl; intros _; apply in_or_app; right; now left. }
  apply H. simpl. intros E. now elim E.
Qed.

(** The sibling paths of [markAsRead] and [getFolders] do release the
    connection when their last command fails. *)
Lemma imap_last_command_failure_releases (messageIds : list Z) (m : string)
    (total : Z) (boxes : Folders.Boxes) :
  Imap.commands
    (Imap.markAsRead messageIds
       [Imap.OnReady; Imap.OpenBoxDone None total; Imap.AddFlagsDone (Some m)])
  = [Imap.Connect; Imap.OpenBox "INBOX" false;
     Imap.AddFlags messageIds "\Seen"; Imap.Close] /\
  Imap.commands
    (Imap.getFolders [Imap.OnReady; Imap.GetBoxesDone (Some m) boxes])
  = [Imap.Connect; Imap.GetBoxes; Imap.Close].
Proof.
  split; reflexivity.
Qed.

(** A [markAsRead] call without a listener left issues no further command
    and keeps its result. *)
Definition imapIdle {A} (st : Imap.State A) : Prop :=
  Imap.readyArmed (Imap.listeners st) = false /\
  Imap.openBoxPending (Imap.listeners st) = false /\
  Imap.callbackPending (Imap.listeners st) = false.

Lemma markAsRead_idle_step (messageIds : list Z) (st : Imap.State bool)
    (ev : Imap.Event) (s : Js.Settled bool) :
  imapIdle st -> Imap.settled st = Some s ->
  let st' := Imap.markAsRead_step messageIds st ev in
  imapIdle st' /\ Imap.settled st' = Some s /\
  Imap.commands st' = Imap.commands st.
Proof.
  intros (Hr & Ho & Hc) Hs.
  destruct ev; simpl; rewrite ?Hr, ?Ho, ?Hc; try (repeat split; assumption).
  unfold Imap.onError. destruct (Imap.errorArmed (Imap.listeners st)).
  - simpl. rewrite Hs. repeat split; assumption.
  - repeat split; assumption.
Qed.

Lemma markAsRead_idle_run (messageIds : list Z) (events : list Imap.Event)
    (st : Imap.State bool) (s : Js.Settled bool) :
  imapIdle st -> Imap.settled st = Some s ->
  let st' := fold_left (Imap.markAsRead_step messageIds) events st in
  Imap.settled st' = Some s /\ Imap.commands st' = Imap.commands st.
Proof.
  revert st. induction events as [|ev events IH]; intros st Hi Hs; simpl.
  - split; [exact Hs|reflexivity].
  - destruct (markAsRead_idle_step messageIds st ev s Hi Hs) as (Hi' & Hs' & Hc').
    destruct (IH _ Hi' Hs') as [H1 H2]. split; [exact H1|].
    now rewrite H2.
Qed.

Lemma markAsRead_openBox_failure_never_releases (messageIds : list Z)
    (m : string) (total : Z) (after : list Imap.Event) :
  let st := Imap.markAsRead messageIds
              ([Imap.OnReady; Imap.OpenBoxDone (Some m) total] ++ after) in
  Imap.settled st = Some (Js.Rejected m) /\
  Imap.commands st = [Imap.Connect; Imap.OpenBox "INBOX" false].
Proof.
  unfold Imap.markAsRead. rewrite fold_left_app.
  apply markAsRead_idle_run.
  - repeat split.
  - reflexivity.
Qed.

(* ================================================================== *)
(** * The IMAP fetch *)
(* ================================================================== *)

Section ImapFacts.

Variable toLocaleString : Z -> string.
Variable dateParse : string -> option Z.
Variables (folder : string) (count : Z).

Local Notation "'imapStep'" :=
  (Imap.fetchImapEmails_step toLocaleString dateParse folder count).

(** The folder is empty. *)
Definition openEmpty (ev : Imap.Event) : Prop :=
  match ev with
  | Imap.OpenBoxDone _ total => total = 0
  | _ => True
  end.

Definition noFetch (cs : list Imap.Command) : Prop :=
  forall first last, ~ In (Imap.SeqFetch first last) cs.

Definition imapNoFetch (st : Imap.State (list Imap.EmailData)) : Prop :=
  Imap.fetchOpen (Imap.listeners st) = false /\
  Imap.fetchErrorArmed (Imap.listeners st) = false /\
  Imap.fetchEndArmed (Imap.listeners st) = false /\
  Imap.heap (Imap.store st) = [] /\
  Imap.attributesArmed (Imap.store st) = [] /\
  Imap.parsing (Imap.store st) = [] /\
  noFetch (Imap.commands st) /\
  (forall l, Imap.settled st = Some (Js.Resolved l) -> l = []).

Lemma noFetch_call cs c :
  noFetch cs -> (forall a b, c <> Imap.SeqFetch a b) -> noFetch (cs ++ [c]).
Proof.
  intros H Hc a b HIn. apply in_app_or in HIn as [HIn|[E|[]]].
  - exact (H a b HIn).
  - exact (Hc a b E).
Qed.

Lemma imapNoFetch_step st ev :
  imapNoFetch st -> openEmpty ev -> imapNoFetch (imapStep st ev).
Proof.
  intros Hsame Hev.
  pose proof Hsame as (Ho & He & Hn & Hh & Ha & Hp & Hc & Hr).
  destruct ev; cbn [Imap.fetchImapEmails_step];
    rewrite ?Ho, ?He, ?Hn, ?Hh, ?Ha, ?Hp; try exact Hsame.
  - (* ready *)
    destruct (Imap.readyArmed (Imap.listeners st)); [|exact Hsame].
    unfold imapNoFetch. simpl. repeat split; try assumption.
    apply noFetch_call; [assumption|discriminate].
  - (* error *)
    unfold Imap.onError.
    destruct (Imap.errorArmed (Imap.listeners st)); [|exact Hsame].
    unfold imapNoFetch. simpl. repeat split; try assumption.
    intros l H. destruct (Imap.settled st) as [s|] eqn:E; simpl in H.
    + apply Hr. exact H.
    + discriminate H.
  - (* openBox *)
    destruct (Imap.openBoxPending (Imap.listeners st)); [|exact Hsame].
    simpl in Hev. subst total.
    destruct err as [m|]; unfold imapNoFetch; simpl.
    + repeat split; try assumption.
      intros l H. destruct (Imap.settled st) as [s|] eqn:E; simpl in H.
      * apply Hr. exact H.
      * discriminate H.
    + repeat split; try assumption.
      * apply noFetch_call; [assumption|discriminate].
      * intros l H. destruct (Imap.settled st) as [s|] eqn:E; simpl in H.
        -- apply Hr. exact H.
        -- now injection H as <-.
Qed.

(** On an empty folder [fetchImapEmails] never issues a fetch and can only
    resolve with no message. *)
Lemma fetchImapEmails_empty_folder (events : list Imap.Event) :
  Forall openEmpty events ->
  let st := Imap.fetchImapEmails toLocaleString dateParse folder count events in
  noFetch (Imap.commands st) /\
  (forall l, Imap.settled st = Some (Js.Resolved l) -> l = []).
Proof.
  intros Hall. unfold Imap.fetchImapEmails.
  assert (H : forall st, imapNoFetch st ->
              imapNoFetch (fold_left imapStep events st)).
  { induction Hall as [|ev events Hev _ IH]; intros st Hst; simpl.
    - exact Hst.
    - apply IH. now apply imapNoFetch_step. }
  destruct (H (Imap.start (list Imap.EmailData))) as (_ & _ & _ & _ & _ & _ & Hc & Hr).
  - unfold imapNoFetch. simpl. repeat split.
    + intros a b [E|[]]. discriminate E.
    + discriminate.
  - split; assumption.
Qed.

(** With a positive total and [count = 0] the fetch is issued, for the
    range [total + 1 : total]. *)
Lemma fetchImapEmails_count_zero (total : Z) :
  0 < total ->
  Imap.commands
    (Imap.fetchImapEmails toLocaleString dateParse folder 0
       [Imap.OnReady; Imap.OpenBoxDone None total])
  = [Imap.Connect; Imap.OpenBox folder true; Imap.SeqFetch (total + 1) total].
Proof.
  intros H. unfold Imap.fetchImapEmails. simpl. unfold Imap.onOpenBox.
  destruct (Z.eqb_spec total 0) as [E|_]; [lia|]. simpl.
  replace (Z.min 0 total) with 0 by lia.
  replace (Z.max 1 (total - 0 + 1)) with (total + 1) by lia. reflexivity.
Qed.

End ImapFacts.



(** [fetchImapEmails] does sort, by what [new Date] reads back from the
    rendered date: under the sample rendering, which parses back, three
    messages delivered oldest first come out newest first.  Nothing is
    said here of the engine's own ru-RU rendering, which [new Date] need
    not read back. *)
Lemma fetchImapEmails_sorts_newest_first :
  let message m t :=
    [Imap.FetchMessage; Imap.MessageBody m;
     Imap.ParserDone m (inr (Sample.mail "a@example.org" t));
     Imap.MessageAttributes m [] (Z.of_nat m)] in
  map Imap.date
    match Imap.settled
            (Imap.fetchImapEmails Sample.toLocaleString Sample.dateParse
               "INBOX" 3
               ([Imap.OnReady; Imap.OpenBoxDone None 3] ++
                message 0%nat 100 ++ message 1%nat 200 ++ message 2%nat 300 ++
                [Imap.FetchEnd])) with
    | Some (Js.Resolved l) => l
    | _ => []
    end = [Some "300"; Some "200"; Some "100"].
Proof.
  vm_compute. reflexivity.
Qed.

(* ================================================================== *)
(** * The adapters on failing servers *)
(* ================================================================== *)

(** C5, on the code: a fetch of one message from a mailbox of one message
    never resolves when that message fails, although every requested index
    has been attempted.  If the parser fails, the failure is logged but not
    counted ([fetched] stays 0); if the retrieval fails, it is logged and
    counted but completion is not checked.  In both cases the promise is
    pending with nothing outstanding, [quit] has not been called, and no
    later event resolves it. *)
Theorem fetchPop3Emails_failed_message_never_resolves :
  forall (toLocaleString : Z -> string) (email password m : string)
         (after : list Pop3.Event),
    let opened := [Pop3.OnConnect; Pop3.LoginDone None; Pop3.StatDone None 1] in
    let parseFailed :=
      opened ++ [Pop3.RetrDone 1 None; Pop3.ParserDone 1 (inl m)] in
    let retrFailed := opened ++ [Pop3.RetrDone 1 (Some m)] in
    let run := Pop3.fetchPop3Emails toLocaleString email password 1 in
    (Pop3.settled (run parseFailed) = None /\
     Pop3.commands (run parseFailed) =
       [Pop3.Connect; Pop3.Login email password; Pop3.Stat; Pop3.Retr 1] /\
     Pop3.logs (run parseFailed) = ["Ошибка разбора письма: " ++ m]%string /\
     Pop3.fetched (run parseFailed) = 0 /\
     Pop3.retrPending (run parseFailed) = [] /\
     Pop3.parsePending (run parseFailed) = [] /\
     notResolved (Pop3.settled (run (parseFailed ++ after)))) /\
    (Pop3.settled (run retrFailed) = None /\
     Pop3.commands (run retrFailed) =
       [Pop3.Connect; Pop3.Login email password; Pop3.Stat; Pop3.Retr 1] /\
     Pop3.logs (run retrFailed) = ["Ошибка POP3 RETR: " ++ m]%string /\
     Pop3.fetched (run retrFailed) = Pop3.fetchCount (run retrFailed) /\
     Pop3.retrPending (run retrFailed) = [] /\
     Pop3.parsePending (run retrFailed) = [] /\
     notResolved (Pop3.settled (run (retrFailed ++ after)))).
Proof.
  intros toLocaleString email password m after opened parseFailed retrFailed run.
  split; repeat (split; [reflexivity|]).
  - exact (fetchPop3Emails_parse_failure_starves toLocaleString email password 1
             (opened ++ [Pop3.RetrDone 1 None]) 1 m after eq_refl).
  - exact (fetchPop3Emails_last_retr_failure_drains toLocaleString email
             password 1 opened 1 m after eq_refl eq_refl).
Qed.

(** C4, on the code: [fetchPop3Emails] resolves with the messages in the
    order their parser callbacks ran, oldest first when they run in index
    order; it never sorts.  With dates 100 < 200 < 300 on the messages 1, 2,
    3 the result is [1, 2, 3], and [2, 3, 1] when the first message is the
    last one parsed. *)
Theorem fetchPop3Emails_resolves_in_completion_order :
  forall (toLocaleString : Z -> string) (email password : string),
    let opened :=
      [Pop3.OnConnect; Pop3.LoginDone None; Pop3.StatDone None 3;
       Pop3.RetrDone 1 None; Pop3.RetrDone 2 None; Pop3.RetrDone 3 None] in
    let parsed i t := Pop3.ParserDone i (inr (Sample.mail "a@example.org" t)) in
    let entry i t := Pop3.summary toLocaleString i (Sample.mail "a@example.org" t) in
    Pop3.settled
      (Pop3.fetchPop3Emails toLocaleString email password 3
         (opened ++ [parsed 1 100; parsed 2 200; parsed 3 300])) =
    Some (Js.Resolved [entry 1 100; entry 2 200; entry 3 300]) /\
    Pop3.settled
      (Pop3.fetchPop3Emails toLocaleString email password 3
         (opened ++ [parsed 2 200; parsed 3 300; parsed 1 100])) =
    Some (Js.Resolved [entry 2 200; entry 3 300; entry 1 100]) /\
    map Pop3.date [entry 1 100; entry 2 200; entry 3 300] =
    [toLocaleString 100; toLocaleString 200; toLocaleString 300].
Proof.
  intros. repeat split.
Qed.

(** C6, on the code: [fetchImapEmails] with [count = 0] on a folder of five
    messages does issue a fetch, for the sequence range [6:5], and waits for
    its answer; a server that answers the range with a message makes the
    result longer than [min(count, total) = 0]. *)
Theorem fetchImapEmails_count_zero_issues_fetch :
  forall (toLocaleString : Z -> string) (dateParse : string -> option Z)
         (folder : string),
    let opened := [Imap.OnReady; Imap.OpenBoxDone None 5] in
    let run := Imap.fetchImapEmails toLocaleString dateParse folder 0 in
    Imap.commands (run opened) =
      [Imap.Connect; Imap.OpenBox folder true; Imap.SeqFetch 6 5] /\
    Imap.settled (run opened) = None /\
    exists d,
      Imap.settled
        (run (opened ++ [Imap.FetchMessage; Imap.MessageAttributes 0 [] 9;
                         Imap.FetchEnd])) = Some (Js.Resolved [d]).
Proof.
  intros. repeat split. eexists. reflexivity.
Qed.

(** C9, on the code: the IMAP adapters reject without ever calling
    [imap.end()] when [openBox] fails, when the fetch fails, and when the
    client reports an error: the commands issued stop short of [Close],
    whatever is delivered afterwards in the case of [markAsRead]. *)
Theorem imap_adapters_reject_without_release :
  forall (toLocaleString : Z -> string) (dateParse : string -> option Z)
         (folder m : string) (count total : Z) (messageIds : list Z)
         (after : list Imap.Event),
    let openBoxFailed := [Imap.OnReady; Imap.OpenBoxDone (Some m) total] in
    (Imap.settled (Imap.markAsRead messageIds (openBoxFailed ++ after))
       = Some (Js.Rejected m) /\
     Imap.commands (Imap.markAsRead messageIds (openBoxFailed ++ after))
       = [Imap.Connect; Imap.OpenBox "INBOX" false]) /\
    (Imap.settled
       (Imap.fetchImapEmails toLocaleString dateParse folder count
          openBoxFailed) = Some (Js.Rejected m) /\
     Imap.commands
       (Imap.fetchImapEmails toLocaleString dateParse folder count
          openBoxFailed) = [Imap.Connect; Imap.OpenBox folder true]) /\
    (Imap.settled
       (Imap.fetchImapEmails toLocaleString dateParse folder 10
          [Imap.OnReady; Imap.OpenBoxDone None 3; Imap.FetchError m])
       = Some (Js.Rejected m) /\
     Imap.commands
       (Imap.fetchImapEmails toLocaleString dateParse folder 10
          [Imap.OnReady; Imap.OpenBoxDone None 3; Imap.FetchError m])
       = [Imap.Connect; Imap.OpenBox folder true; Imap.SeqFetch 1 3]) /\
    (Imap.settled (Imap.testImapConnection [Imap.OnError m])
       = Some (Js.Rejected m) /\
     Imap.commands (Imap.testImapConnection [Imap.OnError m])
       = [Imap.Connect]).
Proof.
  intros. split; [|repeat split].
  apply markAsRead_openBox_failure_never_releases.
Qed.

(* ================================================================== *)
(** * More on the POP3 adapters *)
(* ================================================================== *)

Lemma pop3_indices_range (n i : Z) : In i (Pop3.indices n) -> 1 <= i <= n.
Proof.
  unfold Pop3.indices. intros H. apply in_map_iff in H as (k & <- & H).
  apply in_seq in H. lia.
Qed.

Section Pop3Range.

Variable toLocaleString : Z -> string.
Variables (email password : string) (count total : Z).

Local Notation "'step'" :=
  (Pop3.fetchPop3Emails_step toLocaleString email password count).

(** Every retrieval asked for lies in the window. *)
Definition pop3InRange (cs : list Pop3.Command) : Prop :=
  forall i, In (Pop3.Retr i) cs -> 1 <= i <= Z.min count total.

Lemma pop3InRange_call cs c :
  pop3InRange cs -> (forall i, c <> Pop3.Retr i) -> pop3InRange (cs ++ [c]).
Proof.
  intros H Hc i HIn. apply in_app_or in HIn as [HIn|[E|[]]].
  - exact (H i HIn).
  - elim (Hc i E).
Qed.

Lemma pop3InRange_step st ev :
  pop3InRange (Pop3.commands st) -> statTotal total ev ->
  pop3InRange (Pop3.commands (step st ev)).
Proof.
  intros Hsame Hev.
  destruct ev as [m| |err|err n|i err|i r]; cbn [Pop3.fetchPop3Emails_step].
  - simpl. apply pop3InRange_call; [assumption|discriminate].
  - destruct (Pop3.connected st); [exact Hsame|].
    simpl. apply pop3InRange_call; [assumption|discriminate].
  - destruct (Pop3.loginPending st); [|exact Hsame].
    destruct err as [m|]; simpl;
      (apply pop3InRange_call; [assumption|discriminate]).
  - destruct (Pop3.statPending st); [|exact Hsame].
    simpl in Hev. subst n.
    destruct err as [m|].
    + simpl. apply pop3InRange_call; [assumption|discriminate].
    + unfold Pop3.onStat. destruct (Z.min total count =? 0) eqn:Hn.
      * simpl. apply pop3InRange_call; [assumption|discriminate].
      * match goal with
        | |- context [fold_left ?f ?cs ?s] =>
            destruct (pop3_calls_fields Pop3.Retr cs s)
              as (F1 & F2 & F3 & Fc & Ff & F4 & F5 & F6 & F7 & F8)
        end.
        simpl in F2. simpl. rewrite F2.
        intros i HIn. apply in_app_or in HIn as [HIn|HIn].
        -- exact (Hsame i HIn).
        -- apply in_map_iff in HIn as (j & E & Hj). injection E as ->.
           apply pop3_indices_range in Hj. lia.
  - destruct (Pop3.mem i (Pop3.retrPending st)); [|exact Hsame].
    unfold Pop3.onRetr. destruct err as [m|]; simpl; exact Hsame.
  - destruct (Pop3.mem i (Pop3.parsePending st)); [|exact Hsame].
    unfold Pop3.onParsed. destruct r as [m|parsed]; simpl; [exact Hsame|].
    destruct (Pop3.fetched st + 1 =? Pop3.fetchCount st); simpl;
      [|exact Hsame].
    apply pop3InRange_call; [assumption|discriminate].
Qed.

Lemma pop3InRange_run events :
  Forall (statTotal total) events ->
  pop3InRange
    (Pop3.commands
       (Pop3.fetchPop3Emails toLocaleString email password count events)).
Proof.
  intros Hall. unfold Pop3.fetchPop3Emails.
  assert (H : forall st, pop3InRange (Pop3.commands st) ->
              pop3InRange (Pop3.commands (fold_left step events st))).
  { induction Hall as [|ev events Hev _ IH]; intros st Hst; simpl.
    - exact Hst.
    - apply IH. now apply pop3InRange_step. }
  apply H. intros i [E|[]]. discriminate E.
Qed.

End Pop3Range.

(** X1: Against a mailbox that reports [total] messages, whatever the
    server delivers and in whatever order, [fetchPop3Emails] asks only for
    the messages [1 .. min(count, total)] and, if it resolves, resolves with
    at most [min(count, total)] messages (none when that is not positive). *)
Theorem fetchPop3Emails_stays_in_window :
  forall (toLocaleString : Z -> string) (email password : string)
         (count total : Z) (events : list Pop3.Event),
    Forall (statTotal total) events ->
    let st := Pop3.fetchPop3Emails toLocaleString email password count events in
    (forall i, In (Pop3.Retr i) (Pop3.commands st) ->
               1 <= i <= Z.min count total) /\
    (forall l, Pop3.settled st = Some (Js.Resolved l) ->
               Z.of_nat (length l) <= Z.max 0 (Z.min count total)).
Proof.
  intros toLocaleString email password count total events Hall st. split.
  - exact (pop3InRange_run toLocaleString email password count total events Hall).
  - exact (proj1 (fetchPop3Emails_window toLocaleString email password count
                    total events Hall)).
Qed.

Lemma fetchPop3Emails_stays_in_window_witness :
  let st :=
    Pop3.fetchPop3Emails Sample.toLocaleString "kim@example.org" "secret" 5
      [Pop3.OnConnect; Pop3.LoginDone None; Pop3.StatDone None 2;
       Pop3.RetrDone 2 None; Pop3.RetrDone 1 None;
       Pop3.ParserDone 2 (inr (Sample.mail "a@example.org" 200));
       Pop3.ParserDone 1 (inr (Sample.mail "b@example.org" 100))] in
  (forall i, In (Pop3.Retr i) (Pop3.commands st) -> 1 <= i <= Z.min 5 2) /\
  (forall l, Pop3.settled st = Some (Js.Resolved l) ->
             Z.of_nat (length l) <= Z.max 0 (Z.min 5 2)).
Proof.
  apply (fetchPop3Emails_stays_in_window Sample.toLocaleString
           "kim@example.org" "secret" 5 2).
  repeat constructor.
Defined.

Ltac conjs := repeat match goal with |- _ /\ _ => split end.


Definition isQuit (c : Pop3.Command) : bool :=
  match c with
  | Pop3.Quit => true
  | _ => false
  end.

(** The number of [quit] calls among the commands. *)
Definition quits (cs : list Pop3.Command) : nat := length (filter isQuit cs).

Lemma quits_call cs c :
  quits (cs ++ [c]) = (quits cs + if isQuit c then 1 else 0)%nat.
Proof.
  unfold quits. rewrite filter_app, length_app. simpl.
  now destruct (isQuit c).
Qed.

Lemma quits_retrs cs l : quits (cs ++ map Pop3.Retr l) = quits cs.
Proof.
  unfold quits. rewrite filter_app, length_app.
  replace (filter isQuit (map Pop3.Retr l)) with (@nil Pop3.Command).
  - simpl. lia.
  - induction l; simpl; auto.
Qed.

Section Pop3Clean.

Variable toLocaleString : Z -> string.
Variables (email password : string) (count total : Z).
Hypothesis count_nonneg : 0 <= count.
Hypothesis total_nonneg : 0 <= total.

Local Notation "'step'" :=
  (Pop3.fetchPop3Emails_step toLocaleString email password count).

(** A delivery without failure, from a mailbox of [total] messages. *)
Definition pop3Clean (ev : Pop3.Event) : Prop :=
  match ev with
  | Pop3.OnError _ => False
  | Pop3.OnConnect => True
  | Pop3.LoginDone err => err = None
  | Pop3.StatDone err n => err = None /\ n = total
  | Pop3.RetrDone _ err => err = None
  | Pop3.ParserDone _ r => exists parsed, r = inr parsed
  end.

(** The states of a session in which nothing has failed. *)
Definition pop3Healthy (st : Pop3.State (list Pop3.Email)) : Prop :=
  (pop3BeforeStat st /\ Pop3.settled st = None /\
   quits (Pop3.commands st) = O /\
   (In Pop3.Stat (Pop3.commands st) -> Pop3.statPending st = true))
  \/
  (pop3AfterStat st /\
   Z.of_nat (length (Pop3.emails st))
     + Z.of_nat (length (Pop3.retrPending st))
     + Z.of_nat (length (Pop3.parsePending st)) = Z.min count total /\
   ((Pop3.settled st = None /\ quits (Pop3.commands st) = O /\
     Pop3.fetchCount st = Z.min count total /\
     Pop3.fetched st = Z.of_nat (length (Pop3.emails st)) /\
     0 < Z.of_nat (length (Pop3.retrPending st))
         + Z.of_nat (length (Pop3.parsePending st)))
    \/
    (Pop3.settled st = Some (Js.Resolved (Pop3.emails st)) /\
     quits (Pop3.commands st) = 1%nat /\
     Pop3.retrPending st = [] /\ Pop3.parsePending st = []))).

Lemma pop3Healthy_start : pop3Healthy (Pop3.start (list Pop3.Email)).
Proof.
  left. unfold pop3BeforeStat, notResolved. simpl.
  conjs; try reflexivity; try discriminate.
  intros [E|[]]. discriminate E.
Qed.

Lemma pop3Healthy_step st ev :
  pop3Healthy st -> pop3Clean ev -> pop3Healthy (step st ev).
Proof.
  intros Hsame Hev.
  destruct ev as [m| |err|err n|i err|i r]; cbn [Pop3.fetchPop3Emails_step].
  - elim Hev.
  - (* connect *)
    destruct (Pop3.connected st) eqn:Hcon; [exact Hsame|].
    destruct Hsame as [(Hb & Hs & Hq & Hst)|((Ha & _) & _)]; [|congruence].
    destruct Hb as (H1 & H2 & H3 & H4 & H5 & H6 & H7 & H8).
    left. unfold pop3BeforeStat. simpl. rewrite quits_call. simpl.
    conjs; try assumption; try lia; try tauto.
    + intros Hs'. destruct (H7 Hs'). congruence.
    + intros HIn. apply in_app_or in HIn as [HIn|[E|[]]]; [auto|discriminate].
  - (* login *)
    simpl in Hev. subst err.
    destruct (Pop3.loginPending st) eqn:Hlog; [|exact Hsame].
    destruct Hsame as [(Hb & Hs & Hq & Hst)|((_ & Ha & _) & _)]; [|congruence].
    destruct Hb as (H1 & H2 & H3 & H4 & H5 & H6 & H7 & H8).
    left. unfold pop3BeforeStat. simpl. rewrite quits_call. simpl.
    conjs; try assumption; try lia; try tauto; try discriminate.
  - (* stat *)
    simpl in Hev. destruct Hev as [-> ->].
    destruct (Pop3.statPending st) eqn:Hstat; [|exact Hsame].
    destruct Hsame as [(Hb & Hs & Hq & Hst)|((_ & _ & Ha) & _)]; [|congruence].
    destruct Hb as (H1 & H2 & H3 & H4 & H5 & H6 & H7 & H8).
    destruct (H7 Hstat) as [Hcon Hlog].
    right. unfold Pop3.onStat.
    destruct (Z.min total count =? 0) eqn:Hn.
    + apply Z.eqb_eq in Hn. unfold pop3AfterStat. simpl.
      rewrite quits_call, Hs, H1, H2, H3, Hq. simpl.
      conjs; try assumption; try lia.
      right. conjs; reflexivity.
    + apply Z.eqb_neq in Hn.
      match goal with
      | |- context [fold_left ?f ?cs ?s] =>
          destruct (pop3_calls_fields Pop3.Retr cs s)
            as (F1 & F2 & F3 & Fc & Ff & F4 & F5 & F6 & F7 & F8)
      end.
      simpl in F1, F2, F3, Fc, Ff, F4, F5, F6, F7, F8.
      unfold pop3AfterStat. simpl.
      rewrite F1, F2, F3, Fc, Ff, F4, F5, F6, F7, F8, Hs, H1, H2, H3.
      rewrite quits_retrs. simpl.
      pose proof (pop3_indices_length (Z.min total count)) as Hlen.
      conjs; try assumption; try reflexivity; try lia.
      left. conjs; try assumption; try reflexivity; try lia.
  - (* retr *)
    simpl in Hev. subst err.
    destruct (Pop3.mem i (Pop3.retrPending st)) eqn:Hmem; [|exact Hsame].
    pose proof (pop3_mem_removeOne _ _ Hmem) as Hlen.
    destruct Hsame as [(Hb & _)|(Ha & Hsum & Hcase)].
    { destruct Hb as (H1 & _). rewrite H1 in Hmem. discriminate. }
    right. unfold Pop3.onRetr. simpl. rewrite length_app. simpl.
    split; [exact Ha|]. split; [lia|].
    destruct Hcase as [(Hs & Hq & Hc & Hf & Hpos)|(Hs & Hq & Hr & Hp)].
    + left. conjs; try assumption; lia.
    + rewrite Hr in Hmem. discriminate.
  - (* parser *)
    destruct Hev as [parsed ->].
    destruct (Pop3.mem i (Pop3.parsePending st)) eqn:Hmem; [|exact Hsame].
    pose proof (pop3_mem_removeOne _ _ Hmem) as Hlen.
    destruct Hsame as [(Hb & _)|(Ha & Hsum & Hcase)].
    { destruct Hb as (_ & H2 & _). rewrite H2 in Hmem. discriminate. }
    destruct Hcase as [(Hs & Hq & Hc & Hf & Hpos)|(Hs & Hq & Hr & Hp)].
    2:{ rewrite Hp in Hmem. discriminate. }
    right. unfold Pop3.onParsed. simpl.
    destruct (Pop3.fetched st + 1 =? Pop3.fetchCount st) eqn:Hdone; simpl.
    + apply Z.eqb_eq in Hdone.
      rewrite length_app, quits_call, Hs, Hq. simpl.
      split; [exact Ha|]. split; [lia|]. right.
      conjs; try reflexivity; try lia.
      * destruct (Pop3.retrPending st); [reflexivity|simpl in *; lia].
      * destruct (Pop3.removeOne i (Pop3.parsePending st));
          [reflexivity|simpl in *; lia].
    + apply Z.eqb_neq in Hdone. rewrite length_app. simpl.
      split; [exact Ha|]. split; [lia|]. left.
      conjs; try assumption; lia.
Qed.

Lemma pop3Healthy_run events :
  Forall pop3Clean events ->
  pop3Healthy
    (Pop3.fetchPop3Emails toLocaleString email password count events).
Proof.
  intros Hall. unfold Pop3.fetchPop3Emails.
  assert (H : forall st, pop3Healthy st ->
              pop3Healthy (fold_left step events st)).
  { induction Hall as [|ev events Hev _ IH]; intros st Hst; simpl.
    - exact Hst.
    - apply IH. now apply pop3Healthy_step. }
  apply H, pop3Healthy_start.
Qed.

End Pop3Clean.

(** X2: When nothing fails, [fetchPop3Emails] terminates as intended.  For
    [count >= 0] against a mailbox of [total >= 0] messages, after any
    failure-free delivery (in any order) that has answered [stat] and left
    no retrieval or parse outstanding, the promise is resolved with the
    messages collected, exactly [min(count, total)] of them, and [quit]
    was called exactly once. *)
Theorem fetchPop3Emails_resolves_when_nothing_fails :
  forall (toLocaleString : Z -> string) (email password : string)
         (count total : Z) (events : list Pop3.Event),
    0 <= count -> 0 <= total ->
    Forall (pop3Clean total) events ->
    let st := Pop3.fetchPop3Emails toLocaleString email password count events in
    In Pop3.Stat (Pop3.commands st) ->
    Pop3.statPending st = false ->
    Pop3.retrPending st = [] ->
    Pop3.parsePending st = [] ->
    Pop3.settled st = Some (Js.Resolved (Pop3.emails st)) /\
    Z.of_nat (length (Pop3.emails st)) = Z.min count total /\
    quits (Pop3.commands st) = 1%nat.
Proof.
  intros toLocaleString email password count total events Hc Ht Hall st
         Hstat Hpend Hr Hp.
  assert (Hh : pop3Healthy count total st)
    by (apply pop3Healthy_run; assumption).
  destruct Hh as [(_ & _ & _ & Hst)|(_ & Hsum & Hcase)].
  - specialize (Hst Hstat). congruence.
  - destruct Hcase as [(_ & _ & _ & _ & Hpos)|(Hs & Hq & _ & _)].
    + rewrite Hr, Hp in Hpos. simpl in Hpos. lia.
    + rewrite Hr, Hp in Hsum. simpl in Hsum.
      conjs; [exact Hs|lia|exact Hq].
Qed.

Lemma fetchPop3Emails_resolves_when_nothing_fails_witness :
  let st :=
    Pop3.fetchPop3Emails Sample.toLocaleString "kim@example.org" "secret" 5
      [Pop3.OnConnect; Pop3.LoginDone None; Pop3.StatDone None 2;
       Pop3.RetrDone 2 None; Pop3.RetrDone 1 None;
       Pop3.ParserDone 2 (inr (Sample.mail "a@example.org" 200));
       Pop3.ParserDone 1 (inr (Sample.mail "b@example.org" 100))] in
  Pop3.settled st = Some (Js.Resolved (Pop3.emails st)) /\
  Z.of_nat (length (Pop3.emails st)) = 2 /\
  quits (Pop3.commands st) = 1%nat.
Proof.
  apply (fetchPop3Emails_resolves_when_nothing_fails Sample.toLocaleString
           "kim@example.org" "secret" 5 2).
  - lia.
  - lia.
  - repeat constructor; eexists; reflexivity.
  - simpl. tauto.
  - reflexivity.
  - reflexivity.
  - reflexivity.
Defined.

(* ================================================================== *)
(** * Releasing the connection, continued *)
(* ================================================================== *)

(** A POP3 call that has settled has called [quit]. *)
Definition pop3Released {A} (st : Pop3.State A) : Prop :=
  Pop3.settled st <> None -> In Pop3.Quit (Pop3.commands st).

Lemma pop3Released_call {A} (c : Pop3.Command) (st : Pop3.State A) :
  pop3Released st -> pop3Released (Pop3.call c st).
Proof.
  intros H Hs. simpl. apply in_or_app. left. now apply H.
Qed.

Lemma pop3Released_quit {A} (s : Js.Settled A) (st : Pop3.State A) :
  pop3Released (Pop3.settleWith s (Pop3.call Pop3.Quit st)).
Proof.
  intros _. simpl. apply in_or_app. right. now left.
Qed.

Lemma fetchPop3Emails_released (toLocaleString : Z -> string)
    (email password : string) (count : Z) (events : list Pop3.Event) :
  pop3Released
    (Pop3.fetchPop3Emails toLocaleString email password count events).
Proof.
  unfold Pop3.fetchPop3Emails.
  assert (H : forall st : Pop3.State (list Pop3.Email), pop3Released st ->
              pop3Released
                (fold_left
                   (Pop3.fetchPop3Emails_step toLocaleString email password
                      count) events st)).
  { induction events as [|ev events IH]; intros st Hst; simpl; [exact Hst|].
    apply IH.
    destruct ev as [m| |err|err n|i err|i r]; cbn [Pop3.fetchPop3Emails_step].
    - apply pop3Released_quit.
    - destruct (Pop3.connected st); [exact Hst|].
      intros Hs. simpl. apply in_or_app. left. now apply Hst.
    - destruct (Pop3.loginPending st); [|exact Hst].
      destruct err as [m|]; [apply pop3Released_quit|].
      intros Hs. simpl. apply in_or_app. left. now apply Hst.
    - destruct (Pop3.statPending st); [|exact Hst].
      destruct err as [m|]; [apply pop3Released_quit|].
      unfold Pop3.onStat. destruct (Z.min n count =? 0).
      + apply pop3Released_quit.
      + match goal with
        | |- context [fold_left ?f ?cs ?s] =>
            destruct (pop3_calls_fields Pop3.Retr cs s)
              as (F1 & F2 & _)
        end.
        simpl in F1, F2. intros Hs. simpl in Hs. rewrite F1 in Hs.
        simpl. rewrite F2. apply in_or_app. left. now apply Hst.
    - destruct (Pop3.mem i (Pop3.retrPending st)); [|exact Hst].
      unfold Pop3.onRetr. destruct err as [m|]; exact Hst.
    - destruct (Pop3.mem i (Pop3.parsePending st)); [|exact Hst].
      unfold Pop3.onParsed. destruct r as [m|parsed]; [exact Hst|].
      simpl. destruct (Pop3.fetched st + 1 =? Pop3.fetchCount st).
      + apply pop3Released_quit.
      + exact Hst. }
  apply H. intros Hs. now elim Hs.
Qed.

(** X3: Both POP3 adapters call [quit] before they settle: whatever the
    server delivers, a [testPop3Connection] or [fetchPop3Emails] promise
    that is resolved or rejected belongs to a session on which [quit] has
    been called. *)
Theorem pop3_adapters_quit_before_settling :
  forall (toLocaleString : Z -> string) (email password : string)
         (count : Z) (events : list Pop3.Event),
    (Pop3.settled (Pop3.testPop3Connection email password events) <> None ->
     In Pop3.Quit
       (Pop3.commands (Pop3.testPop3Connection email password events))) /\
    (Pop3.settled
       (Pop3.fetchPop3Emails toLocaleString email password count events)
     <> None ->
     In Pop3.Quit
       (Pop3.commands
          (Pop3.fetchPop3Emails toLocaleString email password count events))).
Proof.
  intros. split.
  - apply testPop3Connection_settled_quit.
  - apply fetchPop3Emails_released.
Qed.

Lemma pop3_adapters_quit_before_settling_witness :
  In Pop3.Quit
    (Pop3.commands
       (Pop3.testPop3Connection "kim@example.org" "secret"
          [Pop3.OnConnect; Pop3.LoginDone (Some "bad password")])) /\
  In Pop3.Quit
    (Pop3.commands
       (Pop3.fetchPop3Emails Sample.toLocaleString "kim@example.org" "secret" 5
          [Pop3.OnConnect; Pop3.LoginDone None;
           Pop3.StatDone (Some "mailbox locked") 0])).
Proof.
  split.
  - apply (proj1 (pop3_adapters_quit_before_settling Sample.toLocaleString
                    "kim@example.org" "secret" 5
                    [Pop3.OnConnect; Pop3.LoginDone (Some "bad password")])).
    discriminate.
  - apply (proj2 (pop3_adapters_quit_before_settling Sample.toLocaleString
                    "kim@example.org" "secret" 5
                    [Pop3.OnConnect; Pop3.LoginDone None;
                     Pop3.StatDone (Some "mailbox locked") 0])).
    discriminate.
Defined.

(** An IMAP call that has resolved has called [imap.end()]. *)
Definition imapReleased {A} (st : Imap.State A) : Prop :=
  forall a, Imap.settled st = Some (Js.Resolved a) ->
            In Imap.Close (Imap.commands st).

Lemma imapReleased_call {A} (c : Imap.Command) (st : Imap.State A) :
  imapReleased st -> imapReleased (Imap.call c st).
Proof.
  intros H a Hs. simpl. apply in_or_app. left. now apply (H a).
Qed.

Lemma imapReleased_reject {A} (m : string) (st : Imap.State A) :
  imapReleased st -> imapReleased (Imap.reject m st).
Proof.
  intros H a Hs. simpl in Hs. apply settle_rejected_resolved in Hs.
  exact (H a Hs).
Qed.

Lemma imapReleased_listeners {A} (l : Imap.Listeners) (st : Imap.State A) :
  imapReleased st -> imapReleased (Imap.withListeners l st).
Proof.
  intros H a Hs. exact (H a Hs).
Qed.

Lemma imapReleased_store {A} (s : Imap.Store) (st : Imap.State A) :
  imapReleased st -> imapReleased (Imap.withStore s st).
Proof.
  intros H a Hs. exact (H a Hs).
Qed.

Lemma imapReleased_log {A} (m : string) (st : Imap.State A) :
  imapReleased st -> imapReleased (Imap.logError m st).
Proof.
  intros H a Hs. exact (H a Hs).
Qed.

Lemma imapReleased_closed {A} (st : Imap.State A) :
  In Imap.Close (Imap.commands st) -> imapReleased st.
Proof.
  intros H a _. exact H.
Qed.

Lemma imapReleased_onError {A} (m : string) (st : Imap.State A) :
  imapReleased st -> imapReleased (Imap.onError m st).
Proof.
  intros H. unfold Imap.onError.
  destruct (Imap.errorArmed (Imap.listeners st)); [|exact H].
  now apply imapReleased_reject, imapReleased_listeners.
Qed.

Lemma imapReleased_run {A} (step : Imap.State A -> Imap.Event -> Imap.State A)
    (events : list Imap.Event) :
  (forall st ev, imapReleased st -> imapReleased (step st ev)) ->
  imapReleased (fold_left step events (Imap.start A)).
Proof.
  intros Hstep.
  assert (H : forall st, imapReleased st ->
              imapReleased (fold_left step events st)).
  { induction events as [|ev events IH]; intros st Hst; simpl; [exact Hst|].
    apply IH, Hstep, Hst. }
  apply H. intros a Hs. discriminate Hs.
Qed.

Ltac imap_released :=
  repeat first
    [ assumption
    | apply imapReleased_onError
    | apply imapReleased_reject
    | apply imapReleased_call
    | apply imapReleased_listeners
    | apply imapReleased_store
    | apply imapReleased_log ].

Lemma close_issued {A} (st : Imap.State A) :
  In Imap.Close (Imap.commands (Imap.call Imap.Close st)).
Proof.
  simpl. apply in_or_app. right. now left.
Qed.

Lemma testImapConnection_released st ev :
  imapReleased st -> imapReleased (Imap.testImapConnection_step st ev).
Proof.
  intros H. destruct ev; simpl; try exact H; [|imap_released].
  destruct (Imap.readyArmed (Imap.listeners st)); [|exact H].
  apply imapReleased_closed. simpl. apply in_or_app. right. now left.
Qed.

Lemma markAsRead_released messageIds st ev :
  imapReleased st -> imapReleased (Imap.markAsRead_step messageIds st ev).
Proof.
  intros H. destruct ev; simpl; try exact H.
  - destruct (Imap.readyArmed (Imap.listeners st)); imap_released.
  - imap_released.
  - destruct (Imap.openBoxPending (Imap.listeners st)); [|exact H].
    destruct err; imap_released.
  - destruct (Imap.callbackPending (Imap.listeners st)); [|exact H].
    apply imapReleased_closed. destruct err; simpl;
      apply in_or_app; right; now left.
Qed.

Lemma getFolders_released st ev :
  imapReleased st -> imapReleased (Imap.getFolders_step st ev).
Proof.
  intros H. destruct ev; simpl; try exact H.
  - destruct (Imap.readyArmed (Imap.listeners st)); imap_released.
  - imap_released.
  - destruct (Imap.callbackPending (Imap.listeners st)); [|exact H].
    apply imapReleased_closed. destruct err; simpl;
      apply in_or_app; right; now left.
Qed.

Lemma fetchImapEmails_released toLocaleString dateParse folder count st ev :
  imapReleased st ->
  imapReleased
    (Imap.fetchImapEmails_step toLocaleString dateParse folder count st ev).
Proof.
  intros H. destruct ev; cbn [Imap.fetchImapEmails_step]; try exact H.
  - destruct (Imap.readyArmed (Imap.listeners st)); imap_released.
  - imap_released.
  - destruct (Imap.openBoxPending (Imap.listeners st)); [|exact H].
    destruct err; [imap_released|].
    unfold Imap.onOpenBox. destruct (total =? 0).
    + apply imapReleased_closed. simpl. apply in_or_app. right. now left.
    + imap_released.
  - destruct (Imap.fetchOpen (Imap.listeners st)); imap_released.
  - destruct (m <? length (Imap.heap (Imap.store st)))%nat; imap_released.
  - destruct (Imap.mem m (Imap.parsing (Imap.store st))); [|exact H].
    destruct result; imap_released.
  - destruct (Imap.mem m (Imap.attributesArmed (Imap.store st)));
      imap_released.
  - destruct (Imap.fetchErrorArmed (Imap.listeners st)); imap_released.
  - destruct (Imap.fetchEndArmed (Imap.listeners st)); [|exact H].
    apply imapReleased_closed. unfold Imap.onFetchEnd. simpl.
    apply in_or_app. right. now left.
Qed.

(** X4: On success every IMAP adapter releases its connection: whatever
    the server delivers, a [testImapConnection], [fetchImapEmails],
    [markAsRead] or [getFolders] promise that is resolved belongs to a
    client on which [imap.end()] has been called. *)
Theorem imap_adapters_release_when_they_resolve :
  forall (toLocaleString : Z -> string) (dateParse : string -> option Z)
         (folder : string) (count : Z) (messageIds : list Z)
         (events : list Imap.Event),
    (forall a,
        Imap.settled (Imap.testImapConnection events) = Some (Js.Resolved a) ->
        In Imap.Close (Imap.commands (Imap.testImapConnection events))) /\
    (forall l,
        Imap.settled
          (Imap.fetchImapEmails toLocaleString dateParse folder count events)
        = Some (Js.Resolved l) ->
        In Imap.Close
          (Imap.commands
             (Imap.fetchImapEmails toLocaleString dateParse folder count
                events))) /\
    (forall a,
        Imap.settled (Imap.markAsRead messageIds events)
        = Some (Js.Resolved a) ->
        In Imap.Close (Imap.commands (Imap.markAsRead messageIds events))) /\
    (forall l,
        Imap.settled (Imap.getFolders events) = Some (Js.Resolved l) ->
        In Imap.Close (Imap.commands (Imap.getFolders events))).
Proof.
  intros. split; [|split; [|split]].
  - apply (imapReleased_run Imap.testImapConnection_step events).
    apply testImapConnection_released.
  - apply (imapReleased_run
             (Imap.fetchImapEmails_step toLocaleString dateParse folder count)
             events).
    apply fetchImapEmails_released.
  - apply (imapReleased_run (Imap.markAsRead_step messageIds) events).
    apply markAsRead_released.
  - apply (imapReleased_run Imap.getFolders_step events).
    apply getFolders_released.
Qed.

Lemma imap_adapters_release_when_they_resolve_witness :
  In Imap.Close
    (Imap.commands
       (Imap.markAsRead [7; 8]
          [Imap.OnReady; Imap.OpenBoxDone None 3; Imap.AddFlagsDone None])).
Proof.
  apply (proj1 (proj2 (proj2
           (imap_adapters_release_when_they_resolve Sample.toLocaleString
              Sample.dateParse "INBOX" 10 [7; 8]
              [Imap.OnReady; Imap.OpenBoxDone None 3; Imap.AddFlagsDone None])))
           true).
  reflexivity.
Defined.


(* ================================================================== *)
(** * More on the IMAP fetch *)
(* ================================================================== *)

Section ImapWindow.

Variable toLocaleString : Z -> string.
Variable dateParse : string -> option Z.
Variables (folder : string) (count total : Z).

Local Notation "'imapStep'" :=
  (Imap.fetchImapEmails_step toLocaleString dateParse folder count).

(** The folder holds [total] messages. *)
Definition openTotal (ev : Imap.Event) : Prop :=
  match ev with
  | Imap.OpenBoxDone _ n => n = total
  | _ => True
  end.

Definition isSeqFetch (c : Imap.Command) : bool :=
  match c with
  | Imap.SeqFetch _ _ => true
  | _ => false
  end.

(** At most one fetch is issued, and only by the [openBox] callback; it
    asks for the range the code computes from [count] and [total]. *)
Definition imapOneFetch (st : Imap.State (list Imap.EmailData)) : Prop :=
  (filter isSeqFetch (Imap.commands st) = [] /\
   Imap.fetchOpen (Imap.listeners st) = false)
  \/
  (filter isSeqFetch (Imap.commands st) =
     [Imap.SeqFetch (Z.max 1 (total - Z.min count total + 1)) total] /\
   total <> 0 /\
   Imap.readyArmed (Imap.listeners st) = false /\
   Imap.openBoxPending (Imap.listeners st) = false).

Lemma filter_call cs c :
  filter isSeqFetch (cs ++ [c]) =
  filter isSeqFetch cs ++ (if isSeqFetch c then [c] else []).
Proof.
  rewrite filter_app. simpl. now destruct (isSeqFetch c).
Qed.

(** Before [openBox] is called back the ready listener and the callback
    are not both outstanding. *)
Definition imapOpening (st : Imap.State (list Imap.EmailData)) : Prop :=
  Imap.openBoxPending (Imap.listeners st) = true ->
  Imap.readyArmed (Imap.listeners st) = false.

Ltac imap_same :=
  split; [assumption|first [assumption|intros; congruence]].

Lemma imapOneFetch_step st ev :
  imapOneFetch st /\ imapOpening st -> openTotal ev ->
  imapOneFetch (imapStep st ev) /\ imapOpening (imapStep st ev).
Proof.
  intros [Hsame Hop] Hev. unfold imapOpening in *.
  destruct ev; cbn [Imap.fetchImapEmails_step]; try (imap_same).
  - (* ready *)
    destruct (Imap.readyArmed (Imap.listeners st)) eqn:Hr;
      [|imap_same].
    split; [|intros _; reflexivity].
    destruct Hsame as [[Hf Ho]|(Hf & Hn & Hr' & Ho)]; [|congruence].
    left. simpl. rewrite filter_call, Hf. simpl. split; [reflexivity|exact Ho].
  - (* error *)
    unfold Imap.onError.
    destruct (Imap.errorArmed (Imap.listeners st)); imap_same.
  - (* openBox *)
    destruct (Imap.openBoxPending (Imap.listeners st)) eqn:Hp;
      [|imap_same].
    simpl in Hev. subst total0. specialize (Hop eq_refl).
    destruct Hsame as [[Hf Ho]|(Hf & Hn & Hr' & Ho)]; [|congruence].
    destruct err as [m|].
    + split; [|simpl; discriminate]. left. simpl. imap_same.
    + unfold Imap.onOpenBox. destruct (Z.eqb_spec total 0) as [E|E].
      * split; [|simpl; discriminate]. left. simpl.
        rewrite filter_call, Hf. simpl. split; [reflexivity|exact Ho].
      * split; [|simpl; discriminate]. right. simpl.
        rewrite filter_call, Hf. simpl.
        replace (Z.min total count) with (Z.min count total) by lia.
        conjs; [reflexivity|exact E|exact Hop|reflexivity].
  - (* fetch message *)
    destruct (Imap.fetchOpen (Imap.listeners st)); imap_same.
  - destruct (m <? length (Imap.heap (Imap.store st)))%nat; imap_same.
  - destruct (Imap.mem m (Imap.parsing (Imap.store st))); [|imap_same].
    destruct result; imap_same.
  - destruct (Imap.mem m (Imap.attributesArmed (Imap.store st)));
      imap_same.
  - destruct (Imap.fetchErrorArmed (Imap.listeners st)) eqn:Hfe;
      [|imap_same].
    split; [|exact Hop].
    destruct Hsame as [[Hf Ho]|(Hf & Hn & Hr' & Ho)].
    + left. simpl. imap_same.
    + right. simpl. conjs; assumption.
  - destruct (Imap.fetchEndArmed (Imap.listeners st)) eqn:Hfe;
      [|imap_same].
    split; [|exact Hop].
    unfold Imap.onFetchEnd.
    destruct Hsame as [[Hf Ho]|(Hf & Hn & Hr' & Ho)].
    + left. simpl. rewrite filter_call, Hf. simpl. split; [reflexivity|exact Ho].
    + right. simpl. rewrite filter_call, Hf. simpl. conjs; try assumption.
      reflexivity.
Qed.

Lemma imapOneFetch_run events :
  Forall openTotal events ->
  imapOneFetch
    (Imap.fetchImapEmails toLocaleString dateParse folder count events).
Proof.
  intros Hall. unfold Imap.fetchImapEmails.
  assert (H : forall st, imapOneFetch st /\ imapOpening st ->
              imapOneFetch (fold_left imapStep events st) /\
              imapOpening (fold_left imapStep events st)).
  { induction Hall as [|ev events Hev _ IH]; intros st Hst; simpl.
    - exact Hst.
    - apply IH. now apply imapOneFetch_step. }
  apply H. split.
  - left. split; reflexivity.
  - intros E. discriminate E.
Qed.

End ImapWindow.

(** X5: [fetchImapEmails] issues at most one fetch per call, and only for a
    folder that is not empty: on a folder of [total] messages it asks for
    the range [max(1, total - min(count, total) + 1) : total].  For
    [count >= 1] these are the last [min(count, total)] sequence numbers of
    the folder. *)
Theorem fetchImapEmails_fetches_the_latest_window :
  forall (toLocaleString : Z -> string) (dateParse : string -> option Z)
         (folder : string) (count total : Z) (events : list Imap.Event),
    Forall (openTotal total) events ->
    let fetches :=
      filter isSeqFetch
        (Imap.commands
           (Imap.fetchImapEmails toLocaleString dateParse folder count
              events)) in
    (fetches = [] \/
     fetches = [Imap.SeqFetch (Z.max 1 (total - Z.min count total + 1)) total]
     /\ total <> 0) /\
    (1 <= count -> 0 <= total ->
     fetches = [] \/
     fetches = [Imap.SeqFetch (total - Z.min count total + 1) total] /\
     1 <= total - Z.min count total + 1 /\ 1 <= Z.min count total).
Proof.
  intros toLocaleString dateParse folder count total events Hall fetches.
  subst fetches.
  destruct (imapOneFetch_run toLocaleString dateParse folder count total
              events Hall) as [[Hf _]|(Hf & Hn & _)].
  - split; [left; exact Hf|]. intros _ _. left. exact Hf.
  - split; [right; split; [exact Hf|exact Hn]|].
    intros Hc Ht. right. rewrite Hf.
    replace (Z.max 1 (total - Z.min count total + 1))
      with (total - Z.min count total + 1) by lia.
    split; [reflexivity|lia].
Qed.

Lemma fetchImapEmails_fetches_the_latest_window_witness :
  filter isSeqFetch
    (Imap.commands
       (Imap.fetchImapEmails Sample.toLocaleString Sample.dateParse "INBOX" 2
          [Imap.OnReady; Imap.OpenBoxDone None 5])) = [Imap.SeqFetch 4 5].
Proof.
  destruct (proj2 (fetchImapEmails_fetches_the_latest_window
                     Sample.toLocaleString Sample.dateParse "INBOX" 2 5
                     [Imap.OnReady; Imap.OpenBoxDone None 5]
                     ltac:(repeat constructor))
              ltac:(lia) ltac:(lia)) as [H|[H _]].
  - discriminate H.
  - exact H.
Defined.



Section ImapOrder.

Variable toLocaleString : Z -> string.
Variable dateParse : string -> option Z.
Variables (folder : string) (count : Z).

Local Notation "'imapStep'" :=
  (Imap.fetchImapEmails_step toLocaleString dateParse folder count).









End ImapOrder.



(* ================================================================== *)
(** * The activity log *)
(* ================================================================== *)

Lemma includes_In (xs : list string) (x : string) :
  ApiClient.includes xs x = true <-> In x xs.
Proof.
  unfold ApiClient.includes. rewrite existsb_exists. split.
  - intros (y & Hy & E). apply String.eqb_eq in E. now subst.
  - intros H. exists x. split; [exact H|apply String.eqb_refl].
Qed.

Lemma logActivity_listed (action : string) (post : Js.Promise unit) :
  ApiClient.logActivity action post =
  if ApiClient.includes Config.logEvents action
  then (match post with
        | Some _ => Some (Js.Resolved tt)
        | None => None
        end, true)
  else (Some (Js.Resolved tt), false).
Proof.
  unfold ApiClient.logActivity.
  change (negb Config.logToAPI) with false. cbv iota.
  now destruct (ApiClient.includes Config.logEvents action).
Qed.

(** X7: [logActivity] posts to the API exactly for the actions listed in
    [config.LOGGING.logEvents]; for any other action it resolves at once
    without a post; it never rejects, whatever the post does, and is
    pending only while a post it made is.  Of the eleven actions
    [server.js] logs, ["emails_fetched"] is the only one listed: every
    other call of [logActivity] by a route does nothing. *)
Theorem logActivity_posts_only_listed_events :
  (forall action post,
      snd (ApiClient.logActivity action post) = true <->
      In action Config.logEvents) /\
  (forall action post,
      ~ In action Config.logEvents ->
      ApiClient.logActivity action post = (Some (Js.Resolved tt), false)) /\
  (forall action post m,
      fst (ApiClient.logActivity action post) <> Some (Js.Rejected m)) /\
  (forall action post,
      fst (ApiClient.logActivity action post) = None -> post = None) /\
  filter ApiClient.posts ApiClient.serverActions = ["emails_fetched"].
Proof.
  split; [|split; [|split; [|split]]].
  - intros action post. rewrite <- includes_In, logActivity_listed.
    destruct (ApiClient.includes Config.logEvents action); cbn [snd];
      split; intros H; first [reflexivity | discriminate H].
  - intros action post H. rewrite logActivity_listed.
    destruct (ApiClient.includes Config.logEvents action) eqn:E;
      [|reflexivity].
    apply includes_In in E. now elim H.
  - intros action post m. rewrite logActivity_listed.
    destruct (ApiClient.includes Config.logEvents action); cbn [fst];
      [destruct post|]; discriminate.
  - intros action post. rewrite logActivity_listed.
    destruct (ApiClient.includes Config.logEvents action); cbn [fst];
      [destruct post|]; congruence.
  - reflexivity.
Qed.

Lemma logActivity_posts_only_listed_events_witness :
  ApiClient.logActivity "folders_fetched" None = (Some (Js.Resolved tt), false).
Proof.
  apply (proj1 (proj2 logActivity_posts_only_listed_events)).
  simpl. intuition discriminate.
Defined.

(* ================================================================== *)
(** * Retrying a call to the API *)
(* ================================================================== *)

Definition failing (o : HttpsExamples.Outcome) : Prop :=
  exists e, o = HttpsExamples.Fails e.

(** The requests and waits of [n] failed attempts that are each followed by
    another attempt, the first of them being attempt number [attempt]. *)
Fixpoint retries (attempt : Z) (n : nat) : list HttpsExamples.Effect :=
  match n with
  | O => []
  | S n' =>
      HttpsExamples.Request :: HttpsExamples.Sleep (2 ^ attempt * 1000)
      :: retries (attempt + 1) n'
  end.

Definition isRequest (e : HttpsExamples.Effect) : bool :=
  match e with
  | HttpsExamples.Request => true
  | HttpsExamples.Sleep _ => false
  end.

Lemma makeSecureAPICall_failing (o : HttpsExamples.Outcome) :
  failing o ->
  HttpsExamples.success (HttpsExamples.makeSecureAPICall o) = false.
Proof.
  intros [e ->]. reflexivity.
Qed.

Lemma attemptsFrom_retries (maxRetries : Z) (failures : list HttpsExamples.Outcome) :
  forall attempt lastError rest,
    Forall failing failures ->
    attempt + Z.of_nat (length failures) <= maxRetries ->
    HttpsExamples.attemptsFrom maxRetries attempt lastError (failures ++ rest) =
    (fst (HttpsExamples.attemptsFrom maxRetries
            (attempt + Z.of_nat (length failures)) lastError rest),
     retries attempt (length failures) ++
     snd (HttpsExamples.attemptsFrom maxRetries
            (attempt + Z.of_nat (length failures)) lastError rest)).
Proof.
  induction failures as [|o failures IH]; intros attempt lastError rest Hall Hle.
  - simpl. rewrite Z.add_0_r. now destruct (HttpsExamples.attemptsFrom _ _ _ _).
  - inversion Hall as [|? ? Ho Hall']; subst.
    cbn [length] in *. rewrite Nat2Z.inj_succ in *.
    cbn [app HttpsExamples.attemptsFrom].
    replace (attempt <=? maxRetries) with true by (symmetry; apply Z.leb_le; lia).
    rewrite (makeSecureAPICall_failing o Ho).
    replace (attempt <? maxRetries) with true by (symmetry; apply Z.ltb_lt; lia).
    rewrite (IH (attempt + 1) lastError rest Hall') by lia.
    replace (attempt + 1 + Z.of_nat (length failures))
      with (attempt + Z.succ (Z.of_nat (length failures))) by lia.
    reflexivity.
Qed.

Lemma attemptsFrom_requests (maxRetries : Z) (outcomes : list HttpsExamples.Outcome) :
  forall attempt lastError,
    Z.of_nat (length (filter isRequest
                        (snd (HttpsExamples.attemptsFrom maxRetries attempt
                                lastError outcomes))))
    <= Z.max 0 (maxRetries - attempt + 1).
Proof.
  induction outcomes as [|o rest IH]; intros attempt lastError;
    cbn [HttpsExamples.attemptsFrom].
  - destruct (Z.leb_spec attempt maxRetries); simpl; lia.
  - destruct (Z.leb_spec attempt maxRetries); [|simpl; lia].
    destruct (HttpsExamples.success _); [simpl; lia|].
    destruct (Z.ltb_spec attempt maxRetries).
    + specialize (IH (attempt + 1) lastError).
      destruct (HttpsExamples.attemptsFrom _ _ _ rest) as [r effects].
      cbn [snd filter isRequest length] in *. lia.
    + specialize (IH (attempt + 1)
                     (Some (HttpsExamples.makeSecureAPICall o))).
      destruct (HttpsExamples.attemptsFrom _ _ _ rest) as [r effects].
      cbn [snd filter isRequest length] in *. lia.
Qed.

(** X8: [makeAPICallWithRetry] makes at most [maxRetries] requests.  When
    the first [n < maxRetries] requests fail and the next one succeeds, it
    returns the result of that one, having waited [2^k] seconds after the
    [k]-th failure; when the first [maxRetries >= 1] requests all fail, it
    gives up with the result of the last one as [lastError], having waited
    after every failure but the last; with [maxRetries <= 0] it gives up at
    once, without a request and with [lastError] undefined. *)
Theorem makeAPICallWithRetry_bounded :
  forall (maxRetries : Z),
    (forall outcomes,
        Z.of_nat (length (filter isRequest
                            (snd (HttpsExamples.makeAPICallWithRetry
                                    maxRetries outcomes))))
        <= Z.max 0 maxRetries) /\
    (forall failures r rest,
        Forall failing failures ->
        Z.of_nat (length failures) < maxRetries ->
        HttpsExamples.makeAPICallWithRetry maxRetries
          (failures ++ HttpsExamples.Responds r :: rest) =
        (HttpsExamples.Returned
           (HttpsExamples.makeSecureAPICall (HttpsExamples.Responds r)),
         retries 1 (length failures) ++ [HttpsExamples.Request])) /\
    (forall failures e rest,
        Forall failing failures ->
        Z.of_nat (length failures) + 1 = maxRetries ->
        HttpsExamples.makeAPICallWithRetry maxRetries
          (failures ++ HttpsExamples.Fails e :: rest) =
        (HttpsExamples.Exhausted
           (Some (HttpsExamples.makeSecureAPICall (HttpsExamples.Fails e)))
           maxRetries,
         retries 1 (length failures) ++ [HttpsExamples.Request])) /\
    (maxRetries <= 0 ->
     forall outcomes,
       HttpsExamples.makeAPICallWithRetry maxRetries outcomes =
       (HttpsExamples.Exhausted None maxRetries, [])).
Proof.
  intros maxRetries. split; [|split; [|split]].
  - intros outcomes. unfold HttpsExamples.makeAPICallWithRetry.
    pose proof (attemptsFrom_requests maxRetries outcomes 1 None). lia.
  - intros failures r rest Hall Hlt.
    unfold HttpsExamples.makeAPICallWithRetry.
    rewrite attemptsFrom_retries by (try assumption; lia).
    cbn [HttpsExamples.attemptsFrom].
    replace (1 + Z.of_nat (length failures) <=? maxRetries) with true
      by (symmetry; apply Z.leb_le; lia).
    reflexivity.
  - intros failures e rest Hall Heq.
    unfold HttpsExamples.makeAPICallWithRetry.
    rewrite attemptsFrom_retries by (try assumption; lia).
    cbn [HttpsExamples.attemptsFrom].
    replace (1 + Z.of_nat (length failures) <=? maxRetries) with true
      by (symmetry; apply Z.leb_le; lia).
    replace (1 + Z.of_nat (length failures) <? maxRetries) with false
      by (symmetry; apply Z.ltb_ge; lia).
    cbn [HttpsExamples.makeSecureAPICall HttpsExamples.success].
    destruct rest as [|o rest]; cbn [HttpsExamples.attemptsFrom];
      replace (1 + Z.of_nat (length failures) + 1 <=? maxRetries) with false
        by (symmetry; apply Z.leb_gt; lia);
      reflexivity.
  - intros Hle outcomes. unfold HttpsExamples.makeAPICallWithRetry.
    destruct outcomes; cbn [HttpsExamples.attemptsFrom];
      replace (1 <=? maxRetries) with false
        by (symmetry; apply Z.leb_gt; lia);
      reflexivity.
Qed.

Lemma makeAPICallWithRetry_bounded_witness :
  HttpsExamples.makeAPICallWithRetry 3 [Sample.refused; Sample.refused; Sample.refused] =
  (HttpsExamples.Exhausted
     (Some (HttpsExamples.Failure (Js.Str "connect ECONNREFUSED") 0
              (Js.Str "ECONNREFUSED"))) 3,
   [HttpsExamples.Request; HttpsExamples.Sleep 2000;
    HttpsExamples.Request; HttpsExamples.Sleep 4000;
    HttpsExamples.Request]) /\
  HttpsExamples.makeAPICallWithRetry 3
    [Sample.refused;
     HttpsExamples.Responds
       {| HttpsExamples.data := Js.Str "ok"; HttpsExamples.status := 200;
          HttpsExamples.headers := [("x-request-id", "req_1")] |}] =
  (HttpsExamples.Returned
     (HttpsExamples.Success (Js.Str "ok") 200 [("x-request-id", "req_1")]
        (Some "req_1")),
   [HttpsExamples.Request; HttpsExamples.Sleep 2000; HttpsExamples.Request]).
Proof.
  split.
  - refine (proj1 (proj2 (proj2 (makeAPICallWithRetry_bounded 3)))
              [Sample.refused; Sample.refused] _ [] _ _).
    + repeat constructor; eexists; reflexivity.
    + reflexivity.
  - refine (proj1 (proj2 (makeAPICallWithRetry_bounded 3))
              [Sample.refused] _ [] _ _).
    + repeat constructor; eexists; reflexivity.
    + reflexivity.
Defined.

(* ================================================================== *)
(** * The routes that read the mailbox *)
(* ================================================================== *)

Section MailboxFacts.

Variable toLowerCase : string -> string.
Variable isEmail : string -> bool.
Variable isInt : Z -> bool.
Variable production : bool.
Variable toLocaleString : Z -> string.
Variable dateParse : string -> option Z.
Variable net : Server.Network.
Variable box : Mailbox.Network.

Lemma logged_unlisted (action : string) (made : list Mailbox.Call)
    (r : Mailbox.Response) :
  ApiClient.includes Config.logEvents action = false ->
  Mailbox.logged box action made r =
  {| Mailbox.outcome := Mailbox.Sent r; Mailbox.calls := made |}.
Proof.
  intros H. unfold Mailbox.logged. rewrite logActivity_listed, H. reflexivity.
Qed.

End MailboxFacts.

(** X9: The five routes that resolve the provider validate the address
    first: a request whose address [isEmail] rejects is answered with a 400
    listing the route's message for the address and then those of the
    other checks that fail; no adapter is called, and the address never
    reaches [getProviderSettings] (no exception escapes, whatever the
    address). *)
Theorem routes_validate_before_resolving :
  forall (toLowerCase : string -> string) (isEmail : string -> bool)
         (isInt : Z -> bool) (production : bool)
         (toLocaleString : Z -> string) (dateParse : string -> option Z)
         (net : Server.Network) (box : Mailbox.Network)
         (b : Server.Body) (w : Mailbox.Window),
    isEmail (Server.email b) = false ->
    let password :=
      (Server.notEmpty (Server.password b), "Пароль не может быть пустым") in
    Server.postTestConnection toLowerCase isEmail production net b =
    {| Server.outcome :=
         Server.Sent
           (Server.BadRequest
              ("Некорректиный email" :: Server.validationErrors [password]));
       Server.calls := [] |} /\
    Server.postSendEmail toLowerCase isEmail production net b =
    {| Server.outcome :=
         Server.Sent
           (Server.BadRequest
              ("Некорректный email отправителя"
               :: Server.validationErrors
                    [password;
                     (isEmail (Server.to b), "Некорректный email получателя");
                     (Server.notEmpty (Server.subject b),
                      "Тема не может быть пустой");
                     (Server.notEmpty (Server.text b),
                      "Тело письма не может быть пустым")]));
       Server.calls := [] |} /\
    Server.postMarkRead toLowerCase isEmail isInt net b =
    {| Server.outcome :=
         Server.Sent
           (Server.BadRequest
              ("Некорректный email"
               :: Server.validationErrors
                    ([password;
                      (Server.isArray (Server.messageIds b),
                       "messageIds должен быть массивом")]
                     ++ map (fun id => (isInt id, "messageIds должны быть числами"))
                          (Server.elements (Server.messageIds b)))));
       Server.calls := [] |} /\
    Mailbox.postFetchEmails toLowerCase isEmail toLocaleString dateParse
      box b w =
    {| Mailbox.outcome :=
         Mailbox.Sent
           (Mailbox.BadRequest
              ("Некорректный email" :: Server.validationErrors [password]));
       Mailbox.calls := [] |} /\
    Mailbox.postGetFolders toLowerCase isEmail box b =
    {| Mailbox.outcome :=
         Mailbox.Sent
           (Mailbox.BadRequest
              ("Некорректный email" :: Server.validationErrors [password]));
       Mailbox.calls := [] |}.
Proof.
  intros toLowerCase isEmail isInt production toLocaleString dateParse net box
         b w H password.
  unfold Server.postTestConnection, Server.postSendEmail, Server.postMarkRead,
    Mailbox.postFetchEmails, Mailbox.postGetFolders.
  unfold Server.validationErrors at 1 3 5 7 9.
  cbn [filter fst snd map negb app]. rewrite H. cbn [negb map snd].
  repeat split.
Qed.

Lemma routes_validate_before_resolving_witness :
  Mailbox.postGetFolders Sample.toLowerCase Sample.isEmail Sample.quiet
    (Sample.account "postmaster" "" (Js.Str "imap")) =
  {| Mailbox.outcome :=
       Mailbox.Sent
         (Mailbox.BadRequest
            ["Некорректный email"; "Пароль не может быть пустым"]);
     Mailbox.calls := [] |}.
Proof.
  exact (proj2 (proj2 (proj2 (proj2
           (routes_validate_before_resolving Sample.toLowerCase
              Sample.isEmail Sample.isInt false Sample.toLocaleString
              Sample.dateParse Sample.friendly Sample.quiet
              (Sample.account "postmaster" "" (Js.Str "imap")) Sample.anyWindow
              eq_refl))))).
Defined.

(** X10: [/api/get-folders] guards the protocol.  A validated request for
    POP3 is answered [{success: true, folders: []}] at once: nothing is
    resolved and no adapter is called.  Any other validated request goes to
    IMAP: with the IMAP host [ih] and port [ip] computed, a falsy host is
    answered with the settings message and no call; a truthy one leads to
    exactly one [getFolders] call on that server, whose folders, or whose
    error, are the answer; the activity log is not posted to. *)
Theorem getFolders_route_guards_pop3 :
  forall (toLowerCase : string -> string) (isEmail : string -> bool)
         (box : Mailbox.Network) (b : Server.Body),
    isEmail (Server.email b) = true ->
    Server.notEmpty (Server.password b) = true ->
    let handled := Mailbox.postGetFolders toLowerCase isEmail box b in
    (Server.fetchProtocol b = Js.Str "pop3" ->
     handled = {| Mailbox.outcome := Mailbox.Sent (Mailbox.FolderList []);
                  Mailbox.calls := [] |}) /\
    (Server.fetchProtocol b <> Js.Str "pop3" ->
     forall ih ip,
       Server.bind (Server.getProviderSettings toLowerCase (Server.email b))
         (fun providerSettings =>
            Server.bind
              (Server.final providerSettings Config.imap Server.hostOf
                 (Server.imapHost b))
              (fun h =>
                 Server.bind
                   (Server.final providerSettings Config.imap Server.portOf
                      (Server.imapPort b))
                   (fun p => Js.Normal (h, p))))
       = Js.Normal (ih, ip) ->
       let target := {| Server.user := Server.email b;
                        Server.pass := Server.password b;
                        Server.host := ih; Server.port := ip |} in
       (Js.truthy ih = false ->
        handled = {| Mailbox.outcome :=
                       Mailbox.Sent (Mailbox.Failure Server.imapUnresolved);
                     Mailbox.calls := [] |}) /\
       (Js.truthy ih = true ->
        Mailbox.calls handled = [Mailbox.GetFolders target] /\
        (forall folders,
            Imap.settled (Imap.getFolders (Mailbox.onGetFolders box target))
            = Some (Js.Resolved folders) ->
            Mailbox.outcome handled = Mailbox.Sent (Mailbox.FolderList folders)) /\
        (forall m,
            Imap.settled (Imap.getFolders (Mailbox.onGetFolders box target))
            = Some (Js.Rejected m) ->
            Mailbox.outcome handled = Mailbox.Sent (Mailbox.Failure m)) /\
        (Imap.settled (Imap.getFolders (Mailbox.onGetFolders box target))
         = None ->
         Mailbox.outcome handled = Mailbox.Waiting))).
Proof.
  intros toLowerCase isEmail box b Hemail Hpass handled.
  subst handled. unfold Mailbox.postGetFolders.
  rewrite validationErrors_passed by (simpl; now rewrite Hemail, Hpass).
  split.
  - intros ->. reflexivity.
  - intros Hp ih ip Hs.
    assert (Hne : Js.strictEqStr (Server.fetchProtocol b) "pop3" = false).
    { destruct (Server.fetchProtocol b) as [| | |n|s]; try reflexivity.
      simpl. apply String.eqb_neq. intros ->. now elim Hp. }
    rewrite Hne, Hs. split.
    + intros ->. reflexivity.
    + intros ->. cbn [negb].
      destruct (Imap.settled _) as [[folders|m]|].
      * rewrite logged_unlisted by reflexivity. cbn [Mailbox.outcome Mailbox.calls].
        split; [reflexivity|]. split; [|split]; intros; congruence.
      * rewrite logged_unlisted by reflexivity. cbn [Mailbox.outcome Mailbox.calls].
        split; [reflexivity|]. split; [|split]; intros; congruence.
      * cbn [Mailbox.outcome Mailbox.calls].
        split; [reflexivity|]. split; [|split]; intros; congruence.
Qed.

Lemma getFolders_route_guards_pop3_witness :
  Mailbox.postGetFolders Sample.toLowerCase Sample.isEmail Sample.quiet
    (Sample.account "anna@gmail.com" "secret" (Js.Str "pop3")) =
  {| Mailbox.outcome := Mailbox.Sent (Mailbox.FolderList []);
     Mailbox.calls := [] |} /\
  Mailbox.postGetFolders Sample.toLowerCase Sample.isEmail Sample.quiet
    (Sample.account "anna@gmail.com" "secret" (Js.Str "imap")) =
  {| Mailbox.outcome :=
       Mailbox.Sent
         (Mailbox.FolderList
            (Folders.extractFolderNames (Sample.tree "/") ""));
     Mailbox.calls :=
       [Mailbox.GetFolders
          {| Server.user := "anna@gmail.com"; Server.pass := "secret";
             Server.host := Js.Str "imap.gmail.com";
             Server.port := Js.Number 993 |}] |}.
Proof.
  split.
  - apply (proj1 (getFolders_route_guards_pop3 Sample.toLowerCase
                    Sample.isEmail Sample.quiet
                    (Sample.account "anna@gmail.com" "secret" (Js.Str "pop3"))
                    eq_refl eq_refl)).
    reflexivity.
  - destruct (proj2 (proj2 (getFolders_route_guards_pop3 Sample.toLowerCase
                    Sample.isEmail Sample.quiet
                    (Sample.account "anna@gmail.com" "secret" (Js.Str "imap"))
                    eq_refl eq_refl)
                    ltac:(discriminate)
                    (Js.Str "imap.gmail.com") (Js.Number 993) eq_refl)
                eq_refl)
      as (Hcalls & Hok & _ & _).
    specialize (Hok _ eq_refl).
    destruct (Mailbox.postGetFolders _ _ _ _) as [o cs].
    simpl in Hcalls, Hok. now rewrite Hcalls, Hok.
Defined.



(* ================================================================== *)
(** * Addresses of no known provider *)
(* ================================================================== *)

Lemma lookup_Some_In (table : list (string * Config.Provider)) key p :
  EmailProviders.lookup table key = Some p -> In (key, p) table.
Proof.
  induction table as [|[k q] table IH]; simpl; [discriminate|].
  destruct (String.eqb_spec k key) as [->|_].
  - intros E. injection E as ->. now left.
  - intros E. right. now apply IH.
Qed.

Lemma find_no_matching_key (providers : list (string * Config.Provider))
    (domain : string) (keys : list string) :
  (forall key q, In (key, q) providers ->
                 EmailProviders.hostMatches domain q = false) ->
  find (EmailProviders.keyMatches providers domain) keys = None.
Proof.
  intros H. induction keys as [|key keys IH]; simpl; [reflexivity|].
  unfold EmailProviders.keyMatches at 1.
  destruct (EmailProviders.lookup providers key) as [q|] eqn:E; [|exact IH].
  now rewrite (H key q (lookup_Some_In _ _ _ E)).
Qed.

(** X12: When the domain of the address (the
    lower-cased second piece of [email.split('@')]) is a substring of no
    IMAP or POP3 host of the table, [getProviderSettings] returns [null],
    and the settings of the request are the hosts and ports its body
    supplies, as they are. *)
Theorem unknown_domain_uses_request_settings :
  forall (toLowerCase : string -> string) (b : Server.Body) (piece : string),
    nth_error (Js.split "@"%char (Server.email b)) 1 = Some piece ->
    (forall key q, In (key, q) Config.PROVIDERS ->
                   ~ hostContains (toLowerCase piece) q) ->
    EmailProviders.getProviderSettings toLowerCase Config.PROVIDERS
      (Server.email b) = Js.Normal None /\
    Server.settings None b =
    Js.Normal
      {| Server.finalImapHost := Server.imapHost b;
         Server.finalImapPort := Server.imapPort b;
         Server.finalPop3Host := Server.pop3Host b;
         Server.finalPop3Port := Server.pop3Port b;
         Server.finalSmtpHost := Server.smtpHost b;
         Server.finalSmtpPort := Server.smtpPort b |}.
Proof.
  intros toLowerCase b piece Hpiece Hnone. split; [|reflexivity].
  unfold EmailProviders.getProviderSettings, EmailProviders.domainOf.
  rewrite Hpiece, find_no_matching_key; [reflexivity|].
  intros key q HIn. apply hostMatches_not_contains. exact (Hnone key q HIn).
Qed.

Lemma unknown_domain_uses_request_settings_witness :
  EmailProviders.getProviderSettings Sample.toLowerCase Config.PROVIDERS
    "kim@Example.org" = Js.Normal None /\
  Server.settings None
    (Sample.overriding "kim@Example.org" "secret" (Js.Str "imap")) =
  Js.Normal
    {| Server.finalImapHost := Js.Str "mail.example.org";
       Server.finalImapPort := Js.Number 143;
       Server.finalPop3Host := Js.Str "mail.example.org";
       Server.finalPop3Port := Js.Number 110;
       Server.finalSmtpHost := Js.Str "mail.example.org";
       Server.finalSmtpPort := Js.Number 465 |}.
Proof.
  apply (unknown_domain_uses_request_settings Sample.toLowerCase
           (Sample.overriding "kim@Example.org" "secret" (Js.Str "imap"))
           "Example.org" eq_refl).
  intros key q HIn. apply hostMatches_not_contains.
  simpl in HIn.
  repeat (destruct HIn as [HIn|HIn]; [injection HIn as _ <-; reflexivity|]).
  contradiction.
Defined.

(* ================================================================== *)
(** * Sending a message *)
(* ================================================================== *)

Definition newline : ascii := "010"%char.

Lemma occurs_app (c : ascii) (a b : string) :
  Js.occurs c (a ++ b) = Js.occurs c a || Js.occurs c b.
Proof.
  induction a as [|x a IH]; cbn [append Js.occurs]; [reflexivity|].
  now rewrite IH, orb_assoc.
Qed.

Lemma replaceNewlines_without (s : string) :
  Js.occurs newline (Smtp.replaceNewlines s) = false.
Proof.
  induction s as [|c s IH]; cbn [Smtp.replaceNewlines]; [reflexivity|].
  fold newline. destruct (Ascii.eqb c newline) eqn:Hc.
  - rewrite occurs_app, IH. reflexivity.
  - cbn [Js.occurs]. now rewrite Hc, IH.
Qed.

Lemma replaceNewlines_same (s : string) :
  Js.occurs newline s = false -> Smtp.replaceNewlines s = s.
Proof.
  induction s as [|c s IH]; cbn [Smtp.replaceNewlines Js.occurs];
    [reflexivity|].
  intros H. apply orb_false_iff in H as [Hc Hs].
  fold newline. rewrite Hc. now rewrite (IH Hs).
Qed.

Lemma replaceNewlines_app (a b : string) :
  Smtp.replaceNewlines (a ++ b) =
  (Smtp.replaceNewlines a ++ Smtp.replaceNewlines b)%string.
Proof.
  induction a as [|c a IH]; simpl; [reflexivity|].
  destruct (Ascii.eqb c "010"%char); simpl; now rewrite IH.
Qed.

(** X13: [sendEmail] creates one transport and sends one message: from the
    account, with the text as it is and, as HTML, the text with every line
    feed replaced by ["<br>"] (so the HTML holds no line feed, and is the
    text itself when the text holds none).  The promise is settled by the
    first callback of [sendMail] alone: rejected with its error, resolved
    with its [info] otherwise; until then it is pending. *)
Theorem sendEmail_sends_text_and_html :
  forall (production : bool) (from password : string)
         (smtpHost smtpPort : Js.Value) (to subject text : string),
    (forall events,
        Smtp.commands
          (Smtp.sendEmail production from password smtpHost smtpPort
             to subject text events) =
        [Smtp.CreateTransport
           (Smtp.transportOptions production from password smtpHost smtpPort);
         Smtp.SendMail
           {| Smtp.mailFrom := from; Smtp.mailTo := to;
              Smtp.mailSubject := subject; Smtp.mailText := text;
              Smtp.mailHtml := Smtp.replaceNewlines text |}]) /\
    Js.occurs newline (Smtp.replaceNewlines text) = false /\
    (Js.occurs newline text = false -> Smtp.replaceNewlines text = text) /\
    (forall a b,
        text = (a ++ String newline b)%string ->
        Smtp.replaceNewlines text =
        (Smtp.replaceNewlines a ++ "<br>" ++ Smtp.replaceNewlines b)%string) /\
    Smtp.settled
      (Smtp.sendEmail production from password smtpHost smtpPort
         to subject text []) = None /\
    (forall error info events,
        Smtp.settled
          (Smtp.sendEmail production from password smtpHost smtpPort
             to subject text (Smtp.Done error info :: events)) =
        Some match error with
             | Some message => Js.Rejected message
             | None => Js.Resolved info
             end).
Proof.
  intros production from password smtpHost smtpPort to subject text.
  split; [|split; [|split; [|split; [|split]]]].
  - intros events. unfold Smtp.sendEmail. now rewrite smtp_run_commands.
  - apply replaceNewlines_without.
  - apply replaceNewlines_same.
  - intros a b ->. rewrite replaceNewlines_app. reflexivity.
  - reflexivity.
  - intros error info events. unfold Smtp.sendEmail. simpl.
    set (st := {| Smtp.settled := _; Smtp.commands := _;
                  Smtp.callbackPending := false |}).
    assert (H : forall evs s,
               Smtp.callbackPending s = false ->
               fold_left Smtp.step evs s = s).
    { induction evs as [|ev evs IH]; intros s Hs; simpl; [reflexivity|].
      destruct ev. unfold Smtp.step at 2. rewrite Hs. now apply IH. }
    rewrite H by reflexivity. reflexivity.
Qed.

Lemma sendEmail_sends_text_and_html_witness :
  Smtp.replaceNewlines
    ("Dear Kim," ++ String newline ("thanks." ++ String newline "Anna")) =
  "Dear Kim,<br>thanks.<br>Anna"%string.
Proof.
  rewrite (proj1 (proj2 (proj2 (proj2
             (sendEmail_sends_text_and_html true "anna@gmail.com" "secret"
                (Js.Str "smtp.gmail.com") (Js.Number 587) "kim@example.org"
                "hello"
                ("Dear Kim," ++ String newline ("thanks." ++ String newline "Anna"))))))
             "Dear Kim,"%string ("thanks." ++ String newline "Anna")%string eq_refl).
  reflexivity.
Defined.

(* ================================================================== *)
(** * Validating the messages to mark *)
(* ================================================================== *)

Lemma validationErrors_checks {A} (test : A -> bool) (message : string)
    (l : list A) :
  Server.validationErrors (map (fun x => (test x, message)) l) =
  map (fun _ => message) (filter (fun x => negb (test x)) l).
Proof.
  unfold Server.validationErrors.
  induction l as [|x l IH]; simpl; [reflexivity|].
  destruct (test x); simpl; now rewrite IH.
Qed.

(** X14: [/api/mark-read] validates [messageIds].  For a request whose
    address and password pass, a [messageIds] that is not an array is
    answered with a 400 saying so, and an array is answered with a 400
    carrying one message for each element [isInt] rejects; in both cases
    nothing is resolved and [markAsRead] is not called. *)
Theorem markRead_route_validates_ids :
  forall (toLowerCase : string -> string) (isEmail : string -> bool)
         (isInt : Z -> bool) (net : Server.Network) (b : Server.Body),
    isEmail (Server.email b) = true ->
    Server.notEmpty (Server.password b) = true ->
    let handled := Server.postMarkRead toLowerCase isEmail isInt net b in
    (forall v,
        Server.messageIds b = Server.NotArray v ->
        handled =
        {| Server.outcome :=
             Server.Sent (Server.BadRequest ["messageIds должен быть массивом"]);
           Server.calls := [] |}) /\
    (forall ids,
        Server.messageIds b = Server.Ids ids ->
        forallb isInt ids = false ->
        handled =
        {| Server.outcome :=
             Server.Sent
               (Server.BadRequest
                  (map (fun _ => "messageIds должны быть числами"%string)
                     (filter (fun id => negb (isInt id)) ids)));
           Server.calls := [] |}).
Proof.
  intros toLowerCase isEmail isInt net b Hemail Hpass. cbv zeta.
  unfold Server.postMarkRead. split.
  - intros v ->. unfold Server.validationErrors. simpl.
    rewrite Hemail, Hpass. reflexivity.
  - intros ids -> Hint.
    replace (Server.validationErrors _)
      with (map (fun _ => "messageIds должны быть числами"%string)
              (filter (fun id => negb (isInt id)) ids)).
    + destruct (filter (fun id => negb (isInt id)) ids) as [|id bad] eqn:E;
        [|reflexivity].
      exfalso.
      assert (H : forallb isInt ids = true).
      { apply forallb_forall. intros x Hx.
        destruct (isInt x) eqn:Ex; [reflexivity|].
        assert (Hin : In x (filter (fun id => negb (isInt id)) ids)).
        { apply filter_In. split; [exact Hx|now rewrite Ex]. }
        rewrite E in Hin. contradiction. }
      congruence.
    + rewrite <- validationErrors_checks.
      unfold Server.validationErrors. simpl. rewrite Hemail, Hpass. reflexivity.
Qed.

Lemma markRead_route_validates_ids_witness :
  Server.postMarkRead Sample.toLowerCase Sample.isEmail Sample.isInt
    Sample.friendly
    (Sample.marking [7; 10 ^ 21; 8]
       (Sample.account "anna@gmail.com" "secret" (Js.Str "imap"))) =
  {| Server.outcome :=
       Server.Sent (Server.BadRequest ["messageIds должны быть числами"]);
     Server.calls := [] |}.
Proof.
  apply (proj2 (markRead_route_validates_ids Sample.toLowerCase Sample.isEmail
                  Sample.isInt Sample.friendly
                  (Sample.marking [7; 10 ^ 21; 8]
                     (Sample.account "anna@gmail.com" "secret" (Js.Str "imap")))
                  eq_refl eq_refl) [7; 10 ^ 21; 8] eq_refl).
  reflexivity.
Defined.
